(** * Recipe discovery cookbook: request-state tracker, persisted favorites
    and favorites hydration.

    A shallow embedding of [src/hooks/useFetch.ts],
    [src/hooks/useLocalStorage.ts], [src/contexts/FavoritesContext.tsx],
    [src/pages/FavoritesPage.tsx], [src/services/api.ts], the view selection
    of [src/pages/CategoryPage.tsx] and the favorite button of the recipe
    page.

    React state cells become record fields, one asynchronous continuation
    (the code between two [await]s) becomes one step of a transition
    function, and what the browser supplies (transport outcomes, the durable
    store, the JSON codec) is an event argument or a section variable. *)

From Stdlib Require Import Ascii String.
From stdpp Require Import base strings list gmap pretty.

Set Default Proof Using "Type".

(** ** JavaScript values the code inspects *)

Module Js.

(** A thrown or rejected value: [instanceof Error], [.name], [.message]. *)
Record Error := MkError {
  is_Error : bool;
  name : string;
  message : string
}.

(** [new Error(msg)] *)
Definition new_Error (msg : string) : Error :=
  {| is_Error := true; name := "Error"; message := msg |}.

(** The rejection of an aborted [fetch]: a [DOMException] named
    ["AbortError"], which is an [Error] instance. *)
Definition AbortError : Error :=
  {| is_Error := true; name := "AbortError";
     message := "The operation was aborted." |}.

(** Truthiness of a string: only the empty string is falsy. *)
Definition truthy (s : string) : bool := negb (String.eqb s "").

(** [s || d] on strings. *)
Definition or_else (s d : string) : string := if truthy s then s else d.

(** The settlement of a promise. *)
Inductive Settled (A : Type) : Type :=
  | Fulfilled (a : A)
  | Rejected (e : Error).
Arguments Fulfilled {A} a.
Arguments Rejected {A} e.

End Js.

(** ** [useFetch]: the request-state tracker *)

Module UseFetch.
Import Js.

(** The part of a [Response] the hook reads. [ok] is "status 200-299". *)
Record Response := { status : nat }.

Definition ok (r : Response) : bool :=
  (200 <=? status r) && (status r <=? 299).

(** Where the body of [fetchData] is suspended. *)
Inductive Phase := AwaitFetch | AwaitJson | Finished.

Global Instance Phase_eq_dec : EqDecision Phase.
Proof. solve_decision. Defined.

(** One run of the effect with a truthy url: its [AbortController] and its
    [fetchData] call. *)
Record Retrieval := {
  r_url : string;
  r_aborted : bool;
  r_phase : Phase
}.

Section Hook.
Context {T : Type}.

(** The three [useState] cells, the dependency of the last effect run
    ([None] before the first render), the cleanup registered by that run (the
    index of the retrieval whose controller it aborts), every retrieval
    issued so far, the mount status and [console.error] output. *)
Record Hook := {
  data : option T;
  loading : bool;
  error : option string;
  deps : option (option string);
  cleanup : option nat;
  retrievals : list Retrieval;
  unmounted : bool;
  console : list Error
}.

(** [useState(null)], [useState(false)], [useState(null)] *)
Definition init : Hook :=
  {| data := None; loading := false; error := None; deps := None;
     cleanup := None; retrievals := []; unmounted := false; console := [] |}.

(** React drops a state update of a component that is no longer mounted. *)
Definition setData (v : option T) (s : Hook) : Hook :=
  if unmounted s then s else
  {| data := v; loading := loading s; error := error s; deps := deps s;
     cleanup := cleanup s; retrievals := retrievals s;
     unmounted := unmounted s; console := console s |}.

Definition setLoading (b : bool) (s : Hook) : Hook :=
  if unmounted s then s else
  {| data := data s; loading := b; error := error s; deps := deps s;
     cleanup := cleanup s; retrievals := retrievals s;
     unmounted := unmounted s; console := console s |}.

Definition setError (e : option string) (s : Hook) : Hook :=
  if unmounted s then s else
  {| data := data s; loading := loading s; error := e; deps := deps s;
     cleanup := cleanup s; retrievals := retrievals s;
     unmounted := unmounted s; console := console s |}.

Definition console_error (e : Error) (s : Hook) : Hook :=
  {| data := data s; loading := loading s; error := error s; deps := deps s;
     cleanup := cleanup s; retrievals := retrievals s;
     unmounted := unmounted s; console := console s ++ [e] |}.

Definition with_retrievals (rs : list Retrieval) (s : Hook) : Hook :=
  {| data := data s; loading := loading s; error := error s; deps := deps s;
     cleanup := cleanup s; retrievals := rs;
     unmounted := unmounted s; console := console s |}.

Definition with_effect (d : option string) (c : option nat) (s : Hook) : Hook :=
  {| data := data s; loading := loading s; error := error s; deps := Some d;
     cleanup := c; retrievals := retrievals s;
     unmounted := unmounted s; console := console s |}.

Definition abort_retrieval (r : Retrieval) : Retrieval :=
  {| r_url := r_url r; r_aborted := true; r_phase := r_phase r |}.

Definition at_phase (p : Phase) (r : Retrieval) : Retrieval :=
  {| r_url := r_url r; r_aborted := r_aborted r; r_phase := p |}.

Definition set_phase (i : nat) (p : Phase) (s : Hook) : Hook :=
  with_retrievals (alter (at_phase p) i (retrievals s)) s.

(** The cleanup function: [abortController.abort()] on the controller of the
    effect run that registered it. *)
Definition run_cleanup (s : Hook) : Hook :=
  match cleanup s with
  | Some i => with_retrievals (alter abort_retrieval i (retrievals s)) s
  | None => s
  end.

(** [!url]: [null] and the empty string skip the fetch. *)
Definition is_sentinel (u : option string) : bool :=
  match u with
  | None => true
  | Some a => negb (truthy a)
  end.

(** The effect body for a truthy [url]: a new controller, then [fetchData()]
    up to its first [await]. *)
Definition start_fetch (a : string) (s : Hook) : Hook :=
  let i := length (retrievals s) in
  let s1 := setError None (setLoading true s) in
  let r := {| r_url := a; r_aborted := false; r_phase := AwaitFetch |} in
  with_effect (Some a) (Some i) (with_retrievals (retrievals s1 ++ [r]) s1).

(** The effect body. *)
Definition run_effect (u : option string) (s : Hook) : Hook :=
  match u with
  | Some a => if is_sentinel u then with_effect u None s else start_fetch a s
  | None => with_effect u None s
  end.

Global Instance deps_eq_dec : EqDecision (option (option string)).
Proof. solve_decision. Defined.

(** A render with argument [u]: the effect re-runs when [u] differs from the
    dependency of its last run, after the previous run's cleanup. *)
Definition render (u : option string) (s : Hook) : Hook :=
  if unmounted s then s
  else if bool_decide (deps s = Some u) then s
  else run_effect u (run_cleanup s).

Definition with_unmounted (s : Hook) : Hook :=
  {| data := data s; loading := loading s; error := error s; deps := deps s;
     cleanup := None; retrievals := retrievals s;
     unmounted := true; console := console s |}.

Definition unmount (s : Hook) : Hook :=
  if unmounted s then s else with_unmounted (run_cleanup s).

(** The [catch] block followed by the [finally] block. *)
Definition catch_finally (err : Error) (s : Hook) : Hook :=
  let s1 :=
    if is_Error err && negb (String.eqb (name err) "AbortError")
    then console_error err
           (setError (Some (or_else (message err) "Failed to fetch data")) s)
    else s in
  setLoading false s1.

(** What an [await] of retrieval [r] observes: once the signal is aborted
    the awaited promise rejects with the abort error. *)
Definition observed {A : Type} (r : Retrieval) (o : Settled A) : Settled A :=
  if r_aborted r then Rejected AbortError else o.

(** The continuation after [await fetch(url, {signal})]. *)
Definition fetch_settles (i : nat) (o : Settled Response) (s : Hook) : Hook :=
  match retrievals s !! i with
  | Some r =>
      if bool_decide (r_phase r = AwaitFetch) then
        match observed r o with
        | Rejected err => catch_finally err (set_phase i Finished s)
        | Fulfilled resp =>
            if negb (ok resp)
            then catch_finally
                   (new_Error ("HTTP error! status: " +:+ pretty (status resp)))
                   (set_phase i Finished s)
            else set_phase i AwaitJson s
        end
      else s
  | None => s
  end.

(** The continuation after [await response.json()]. The parsed body is a
    [T] or [null] (the body [null] is valid JSON), and [setData(result)]
    stores it as it is. *)
Definition json_settles (i : nat) (o : Settled (option T)) (s : Hook) : Hook :=
  match retrievals s !! i with
  | Some r =>
      if bool_decide (r_phase r = AwaitJson) then
        match observed r o with
        | Rejected err => catch_finally err (set_phase i Finished s)
        | Fulfilled result =>
            setLoading false (setData result (set_phase i Finished s))
        end
      else s
  | None => s
  end.

(** What can happen to a tracker between two observations. *)
Inductive Event :=
  | Render (u : option string)
  | Unmount
  | FetchSettles (i : nat) (o : Settled Response)
  | JsonSettles (i : nat) (o : Settled (option T)).

Definition step (s : Hook) (ev : Event) : Hook :=
  match ev with
  | Render u => render u s
  | Unmount => unmount s
  | FetchSettles i o => fetch_settles i o s
  | JsonSettles i o => json_settles i o s
  end.

Definition run (evs : list Event) (s : Hook) : Hook := foldl step s evs.

(** Retrieval [i] has been superseded: a newer locator or the teardown has
    aborted its controller. *)
Definition superseded (i : nat) (s : Hook) : Prop :=
  ∃ r, retrievals s !! i = Some r ∧ r_aborted r = true.

(** Retrieval [i] is current and has not settled yet. *)
Definition in_flight (i : nat) (s : Hook) : Prop :=
  ∃ r, retrievals s !! i = Some r ∧ r_aborted r = false ∧ r_phase r ≠ Finished.

(** The three observable components. *)
Definition observe (s : Hook) : option T * bool * option string :=
  (data s, loading s, error s).

(** The idle outcome: no payload, no error, not loading. *)
Definition idle (s : Hook) : Prop :=
  data s = None ∧ error s = None ∧ loading s = false.

(** A settlement of a retrieval other than [i]. *)
Definition settles_other (i : nat) (ev : Event) : bool :=
  match ev with
  | FetchSettles j _ | JsonSettles j _ => negb (j =? i)
  | _ => false
  end.

(** Only the retrieval whose cleanup is registered can be live: every other
    one has had its controller aborted. *)
Definition current_only (s : Hook) : Prop :=
  ∀ i r, retrievals s !! i = Some r → r_aborted r = false → cleanup s = Some i.

(** [s'] differs from [s] in no controller and in no effect bookkeeping. *)
Definition same_controllers (s s' : Hook) : Prop :=
  cleanup s' = cleanup s ∧ unmounted s' = unmounted s ∧ deps s' = deps s ∧
  ∀ j, r_aborted <$> retrievals s' !! j = r_aborted <$> retrievals s !! j.

(** Pending and failed exclude each other, and a failure message is never
    empty. *)
Definition consistent (s : Hook) : Prop :=
  (loading s = true → error s = None) ∧
  (∀ e, error s = Some e → truthy e = true).

(** Retrieval [i] is live and suspended at [p], no failure is recorded, and
    every other controller is aborted. *)
Definition awaiting (i : nat) (p : Phase) (s : Hook) : Prop :=
  unmounted s = false ∧ error s = None ∧
  (∃ a, retrievals s !! i =
          Some {| r_url := a; r_aborted := false; r_phase := p |}) ∧
  ∀ j r, j ≠ i → retrievals s !! j = Some r → r_aborted r = true.

(** The succeeded outcome with payload [p], with nothing left that could
    still write [data] or [error]. *)
Definition succeeded_with (p : T) (s : Hook) : Prop :=
  data s = Some p ∧ error s = None ∧ loading s = false ∧
  ∀ j r, retrievals s !! j = Some r →
         r_aborted r = true ∨ r_phase r = Finished.

(** The reading of "exactly one outcome holds" under which a payload shows
    only in the succeeded outcome. *)
Definition no_stale_payload (s : Hook) : Prop :=
  loading s = true ∨ error s ≠ None → data s = None.

(** The reading of "a superseded retrieval never mutates the state". *)
Definition superseded_is_silent : Prop :=
  ∀ evs i o,
    let s := run evs init in
    superseded i s →
    observe (step s (FetchSettles i o)) = observe s.

(** The reading of "binding the sentinel always yields idle". *)
Definition sentinel_yields_idle : Prop :=
  ∀ evs, idle (step (run evs init) (Render None)).

End Hook.
Arguments Hook T : clear implicits.
Arguments Event T : clear implicits.

End UseFetch.

(** ** The views of [CategoryPage] *)

Module CategoryPage.
Import Js UseFetch.

Section Views.
(** The declaration of [Recipe] ([src/types]) is not among the sources; the
    page only passes recipes on to [RecipeCard]. *)
Context {Recipe : Type}.

(** [interface RecipesByCategoryResponse { meals: Recipe[] | null }] *)
Record RecipesByCategoryResponse := { meals : option (list Recipe) }.

(** What the component returns. *)
Inductive View :=
  | Spinner
  | ErrorMessage (message : string)
  | NoResults
  | RecipesGrid (cards : list Recipe).

(** [if (!data || !data.meals) ... else ...] *)
Definition content (d : option RecipesByCategoryResponse) : View :=
  match d with
  | Some {| meals := Some ms |} => RecipesGrid ms
  | _ => NoResults
  end.

(** The chain of returns: [loading], then [error], then the payload. *)
Definition view (s : Hook RecipesByCategoryResponse) : View :=
  if loading s then Spinner
  else match error s with
       | Some e => if truthy e then ErrorMessage e else content (data s)
       | None => content (data s)
       end.

End Views.
Arguments RecipesByCategoryResponse Recipe : clear implicits.
Arguments View Recipe : clear implicits.

End CategoryPage.

(** ** Code that may throw: a state and exception monad *)

Module Exn.

Definition M (S A : Type) : Type := S → S * (Js.Error + A).

Definition ret {S A : Type} (a : A) : M S A := λ s, (s, inr a).

Definition bind {S A B : Type} (c : M S A) (k : A → M S B) : M S B :=
  λ s, match c s with
       | (s', inr a) => k a s'
       | (s', inl e) => (s', inl e)
       end.

Definition throw {S A : Type} (e : Js.Error) : M S A := λ s, (s, inl e).

Definition get {S : Type} : M S S := λ s, (s, inr s).

Definition modify {S : Type} (f : S → S) : M S unit := λ s, (f s, inr tt).

(** [try { body } catch (e) { handler e }]: state changes made by [body]
    before it throws are kept. *)
Definition try_catch {S A : Type} (body : M S A) (handler : Js.Error → M S A)
  : M S A :=
  λ s, match body s with
       | (s', inl e) => handler e s'
       | (s', inr a) => (s', inr a)
       end.

(** Lift a fallible pure result. *)
Definition lift {S A : Type} (r : Js.Error + A) : M S A :=
  match r with
  | inl e => throw e
  | inr a => ret a
  end.

(** The state a computation leaves, and what it returns or throws. *)
Definition exec {S A : Type} (c : M S A) (s : S) : S := (c s).1.

Definition outcome {S A : Type} (c : M S A) (s : S) : Js.Error + A := (c s).2.

Module Notations.
Notation "x <~ c ;; k" := (bind c (λ x, k))
  (at level 100, c at next level, right associativity).
Notation "c ;;; k" := (bind c (λ _, k))
  (at level 100, right associativity).
End Notations.

End Exn.

(** ** The durable store ([window.localStorage]) *)

Module Storage.

(** The stored items, and when the browser refuses: a read error (storage
    unavailable) and a write error per key and text (quota, private mode). *)
Record t := {
  items : gmap string string;
  getItem_error : option Js.Error;
  setItem_error : string → string → option Js.Error
}.

Definition getItem (k : string) (st : t) : Js.Error + option string :=
  match getItem_error st with
  | Some e => inl e
  | None => inr (items st !! k)
  end.

Definition setItem (k v : string) (st : t) : Js.Error + t :=
  match setItem_error st k v with
  | Some e => inl e
  | None => inr {| items := <[k:=v]> (items st);
                   getItem_error := getItem_error st;
                   setItem_error := setItem_error st |}
  end.

(** A store that never fails. *)
Definition reliable (m : gmap string string) : t :=
  {| items := m; getItem_error := None; setItem_error := λ _ _, None |}.

(** A store that refuses every write. *)
Definition full (m : gmap string string) : t :=
  {| items := m; getItem_error := None;
     setItem_error := λ _ _,
       Some {| Js.is_Error := true; Js.name := "QuotaExceededError";
               Js.message := "The quota has been exceeded." |} |}.

End Storage.

(** ** [useLocalStorage]: the persisted slot *)

Module UseLocalStorage.
Import Js Exn Exn.Notations.

Definition dquote : string := String (ascii_of_nat 34) "".

Section Slot.
Context {T : Type}.

(** [JSON.stringify] and [JSON.parse] at type [T]; either may throw. *)
Variable JSON_stringify : T → Error + string.
Variable JSON_parse : string → Error + T.

(** The browser: the durable store and the console. *)
Record World := {
  localStorage : Storage.t;
  console : list (string * Error)
}.

(** The hook instance: its state cell and the browser it runs in. *)
Record Slot := {
  storedValue : T;
  world : World
}.

Definition console_error (msg : string) (e : Error) (w : World) : World :=
  {| localStorage := localStorage w; console := console w ++ [(msg, e)] |}.

Definition getItem (key : string) : M World (option string) :=
  λ w, (w, Storage.getItem key (localStorage w)).

(** The lazy initialiser of [useState]. *)
Definition initialise (key : string) (initialValue : T) : M World T :=
  try_catch
    (item <~ getItem key ;;
     match item with
     | Some text =>
         if truthy text then lift (JSON_parse text) else ret initialValue
     | None => ret initialValue
     end)
    (λ err,
       modify (console_error
         ("Error reading localStorage key " +:+ dquote +:+ key +:+ dquote +:+ ":")
         err) ;;;
       ret initialValue).

(** The first render of the hook in browser [w]. *)
Definition useLocalStorage (key : string) (initialValue : T) (w : World)
  : Slot :=
  let '(w', r) := initialise key initialValue w in
  {| storedValue := match r with inr v => v | inl _ => initialValue end;
     world := w' |}.

Definition setStoredValue (v : T) : M Slot unit :=
  modify (λ sl, {| storedValue := v; world := world sl |}).

Definition setItem (key text : string) : M Slot unit :=
  λ sl, match Storage.setItem key text (localStorage (world sl)) with
        | inl e => (sl, inl e)
        | inr st => ({| storedValue := storedValue sl;
                        world := {| localStorage := st;
                                    console := console (world sl) |} |},
                     inr tt)
        end.

Definition slot_console_error (msg : string) (e : Error) : M Slot unit :=
  modify (λ sl, {| storedValue := storedValue sl;
                   world := console_error msg e (world sl) |}).

(** [setValue] as one render of the hook returns it: the argument is a
    value or an updater. The function closes over [rendered], the
    [storedValue] that render read from the state cell, and applies an
    updater to it, whatever the cell holds when the call is made. The call
    of a handler of the render that shows slot [sl] is
    [setValue key (storedValue sl) value] run on [sl]. *)
Definition setValue (key : string) (rendered : T) (value : T + (T → T))
  : M Slot unit :=
  try_catch
    (let valueToStore :=
       match value with
       | inl v => v
       | inr f => f rendered
       end in
     setStoredValue valueToStore ;;;
     text <~ lift (JSON_stringify valueToStore) ;;
     setItem key text)
    (λ err,
       slot_console_error
         ("Error setting localStorage key " +:+ dquote +:+ key +:+ dquote +:+ ":")
         err).

(** The value [setValue] stores. *)
Definition valueToStore (value : T + (T → T)) (rendered : T) : T :=
  match value with
  | inl v => v
  | inr f => f rendered
  end.

Definition setting_message (key : string) : string :=
  "Error setting localStorage key " +:+ dquote +:+ key +:+ dquote +:+ ":".

Definition reading_message (key : string) : string :=
  "Error reading localStorage key " +:+ dquote +:+ key +:+ dquote +:+ ":".

End Slot.
Arguments World : clear implicits.
Arguments Slot T : clear implicits.

End UseLocalStorage.

(** ** [FavoritesProvider]: the favorites access point *)

Module Favorites.
Import Js Exn UseLocalStorage.

Definition KEY : string := "recipe-favorites".

Section Provider.
Variable JSON_stringify : list string → Error + string.
Variable JSON_parse : string → Error + list string.

(** [useLocalStorage<string[]>('recipe-favorites', [])] *)
Definition provider (w : World) : Slot (list string) :=
  useLocalStorage JSON_parse KEY [] w.

(** The [favorites] a render of the provider gets from the hook. *)
Definition favorites (sl : Slot (list string)) : list string := storedValue sl.

(** The functions of the context value belong to one render of the
    provider: [rendered] is the [favorites] of that render. *)
Definition setFavorites (rendered : list string)
    (value : list string + (list string → list string))
  : M (Slot (list string)) unit :=
  setValue JSON_stringify KEY rendered value.

(** The updater of [addFavorite]. *)
Definition add_updater (recipeId : string) (prevFavorites : list string)
  : list string :=
  if bool_decide (recipeId ∈ prevFavorites) then prevFavorites
  else prevFavorites ++ [recipeId].

(** The updater of [removeFavorite]. *)
Definition remove_updater (recipeId : string) (prevFavorites : list string)
  : list string :=
  filter (λ id, id ≠ recipeId) prevFavorites.

Definition addFavorite (rendered : list string) (recipeId : string)
  : M (Slot (list string)) unit :=
  setFavorites rendered (inr (add_updater recipeId)).

Definition removeFavorite (rendered : list string) (recipeId : string)
  : M (Slot (list string)) unit :=
  setFavorites rendered (inr (remove_updater recipeId)).

(** [favorites.includes(recipeId)] *)
Definition isFavorite (rendered : list string) (recipeId : string) : bool :=
  bool_decide (recipeId ∈ rendered).

End Provider.

End Favorites.

(** ** [FavoritesPage]: hydration of the favorite ids *)

Module FavoritesPage.
Import Js.
Export UseFetch (Response, status, ok).

Definition BASE_URL : string := "https://www.themealdb.com/api/json/v1/1".

Section Recipes.
(** The declaration of [Recipe] ([src/types]) is not among the sources; the
    page only stores recipes and passes them on to [RecipeCard]. *)
Context {Recipe : Type}.

(** The body of a lookup response: [{ meals: ... }], where [meals] may be
    [null] and an entry may be [null]. *)
Record LookupResponse := { meals : option (list (option Recipe)) }.

(** What the network does with one [fetch]: it rejects, or it answers with a
    response whose [json()] settles. *)
Inductive Transport :=
  | NetworkFailure (e : Error)
  | Responded (resp : Response) (body : Settled LookupResponse).

(** One [Promise.all] over the lookups of an effect run: the ids, what each
    lookup settled with ([None] while pending) and whether the awaited
    promise has settled, that is whether the continuation of
    [fetchFavoriteRecipes] has run. *)
Record Batch := {
  b_ids : list string;
  b_results : list (option (Settled (option Recipe)));
  b_settled : bool
}.

(** The three [useState] cells, the [favorites] of the last render, the
    batches started so far, every [fetch] call made and [console.error]
    output. *)
Record Page := {
  favoriteRecipes : list Recipe;
  loading : bool;
  error : option string;
  favorites : list string;
  batches : list Batch;
  requests : list string;
  console : list Error
}.

Definition init : Page :=
  {| favoriteRecipes := []; loading := false; error := None; favorites := [];
     batches := []; requests := []; console := [] |}.

Definition setFavoriteRecipes (rs : list Recipe) (s : Page) : Page :=
  {| favoriteRecipes := rs; loading := loading s; error := error s;
     favorites := favorites s; batches := batches s; requests := requests s;
     console := console s |}.

Definition setLoading (b : bool) (s : Page) : Page :=
  {| favoriteRecipes := favoriteRecipes s; loading := b; error := error s;
     favorites := favorites s; batches := batches s; requests := requests s;
     console := console s |}.

Definition setError (e : option string) (s : Page) : Page :=
  {| favoriteRecipes := favoriteRecipes s; loading := loading s; error := e;
     favorites := favorites s; batches := batches s; requests := requests s;
     console := console s |}.

Definition console_error (e : Error) (s : Page) : Page :=
  {| favoriteRecipes := favoriteRecipes s; loading := loading s;
     error := error s; favorites := favorites s; batches := batches s;
     requests := requests s; console := console s ++ [e] |}.

Definition with_favorites (ids : list string) (s : Page) : Page :=
  {| favoriteRecipes := favoriteRecipes s; loading := loading s;
     error := error s; favorites := ids; batches := batches s;
     requests := requests s; console := console s |}.

Definition with_batches (bs : list Batch) (s : Page) : Page :=
  {| favoriteRecipes := favoriteRecipes s; loading := loading s;
     error := error s; favorites := favorites s; batches := bs;
     requests := requests s; console := console s |}.

Definition with_requests (rq : list string) (s : Page) : Page :=
  {| favoriteRecipes := favoriteRecipes s; loading := loading s;
     error := error s; favorites := favorites s; batches := batches s;
     requests := rq; console := console s |}.

Section Page.
(** [encodeURIComponent], and the message of the [TypeError] the engine
    raises for [null[0]]. *)
Variable encodeURIComponent : string → string.
Variable null_index_message : string.

Definition getRecipeByIdUrl (recipeId : string) : string :=
  BASE_URL +:+ "/lookup.php?i=" +:+ encodeURIComponent recipeId.

Definition TypeError (msg : string) : Error :=
  {| is_Error := true; name := "TypeError"; message := msg |}.

(** [data.meals[0]] *)
Definition first_meal (d : LookupResponse) : Settled (option Recipe) :=
  match meals d with
  | None => Rejected (TypeError null_index_message)
  | Some ms => Fulfilled (mjoin (ms !! 0))
  end.

(** The promise of the async callback of [favorites.map] for [recipeId]. *)
Definition lookup (recipeId : string) (t : Transport) : Settled (option Recipe) :=
  match t with
  | NetworkFailure e => Rejected e
  | Responded resp body =>
      if negb (ok resp)
      then Rejected (new_Error ("Failed to fetch recipe " +:+ recipeId))
      else match body with
           | Rejected e => Rejected e
           | Fulfilled d => first_meal d
           end
  end.

(** The batch an effect run starts: every lookup pending. *)
Definition new_batch (ids : list string) : Batch :=
  {| b_ids := ids; b_results := replicate (length ids) None;
     b_settled := false |}.

(** The effect body for a non-empty [favorites]: [fetchFavoriteRecipes()] up
    to [await Promise.all(fetchPromises)]; every callback of [map] has run
    up to its [await fetch(...)]. *)
Definition start_batch (ids : list string) (s : Page) : Page :=
  let s1 := setError None (setLoading true s) in
  with_batches (batches s1 ++ [new_batch ids])
    (with_requests (requests s1 ++ (getRecipeByIdUrl <$> ids)) s1).

(** The effect, run with the [favorites] of the render. *)
Definition run_effect (ids : list string) (s : Page) : Page :=
  let s0 := with_favorites ids s in
  if bool_decide (length ids = 0) then setFavoriteRecipes [] s0
  else start_batch ids s0.

(** [err instanceof Error ? err.message : 'Failed to load favorites'] *)
Definition failure_message (err : Error) : string :=
  if is_Error err then message err else "Failed to load favorites".

(** The [catch] block followed by the [finally] block. *)
Definition catch_finally (err : Error) (s : Page) : Page :=
  setLoading false (console_error err (setError (Some (failure_message err)) s)).

(** The values [Promise.all] fulfils with, once every lookup has fulfilled. *)
Definition all_fulfilled (rs : list (option (Settled (option Recipe))))
  : option (list (option Recipe)) :=
  mapM (λ r, match r with
             | Some (Fulfilled v) => Some v
             | _ => None
             end) rs.

(** [recipes.filter(Boolean)] *)
Definition filter_Boolean (recipes : list (option Recipe)) : list Recipe :=
  omap id recipes.

(** The rest of the [try] block followed by the [finally] block. *)
Definition then_finally (recipes : list (option Recipe)) (s : Page) : Page :=
  setLoading false (setFavoriteRecipes (filter_Boolean recipes) s).

Definition settle_batch (b : Batch) : Batch :=
  {| b_ids := b_ids b; b_results := b_results b; b_settled := true |}.

Definition record_result (i : nat) (o : Settled (option Recipe)) (b : Batch)
  : Batch :=
  {| b_ids := b_ids b; b_results := <[i := Some o]> (b_results b);
     b_settled := b_settled b |}.

(** Lookup [i] of batch [k] settles. [Promise.all] rejects with the first
    rejection and fulfils when the last lookup fulfils; once it has settled,
    later settlements of its lookups are ignored. *)
Definition lookup_settles (k i : nat) (t : Transport) (s : Page) : Page :=
  match batches s !! k with
  | Some b =>
      match b_ids b !! i, b_results b !! i with
      | Some recipeId, Some None =>
          let o := lookup recipeId t in
          let b1 := record_result i o b in
          if b_settled b then with_batches (<[k := b1]> (batches s)) s
          else
            match o with
            | Rejected err =>
                catch_finally err
                  (with_batches (<[k := settle_batch b1]> (batches s)) s)
            | Fulfilled _ =>
                match all_fulfilled (b_results b1) with
                | Some recipes =>
                    then_finally recipes
                      (with_batches (<[k := settle_batch b1]> (batches s)) s)
                | None => with_batches (<[k := b1]> (batches s)) s
                end
            end
      | _, _ => s
      end
  | None => s
  end.

Inductive Event :=
  | Effect (ids : list string)
  | LookupSettles (k i : nat) (t : Transport).

Definition step (s : Page) (ev : Event) : Page :=
  match ev with
  | Effect ids => run_effect ids s
  | LookupSettles k i t => lookup_settles k i t s
  end.

Definition run (evs : list Event) (s : Page) : Page := foldl step s evs.

(** A settlement of a lookup of batch [k]. *)
Definition settles_in (k : nat) (ev : Event) : bool :=
  match ev with
  | LookupSettles k' _ _ => k' =? k
  | Effect _ => false
  end.

(** A lookup of batch [k] other than lookup [i] fulfils. *)
Definition fulfils_other (ids : list string) (k i : nat) (ev : Event) : bool :=
  match ev with
  | LookupSettles k' j t =>
      (k' =? k) && negb (j =? i) &&
      match ids !! j with
      | Some recipeId =>
          match lookup recipeId t with
          | Fulfilled _ => true
          | Rejected _ => false
          end
      | None => true
      end
  | Effect _ => false
  end.

(** Batch [k] runs over [ids], its [Promise.all] has not settled and its
    lookup [i] is pending. *)
Definition batch_open (k : nat) (ids : list string) (i : nat) (s : Page) : Prop :=
  ∃ b, batches s !! k = Some b ∧ b_ids b = ids ∧ b_settled b = false ∧
       b_results b !! i = Some None.

Definition batch_settled (k : nat) (s : Page) : Prop :=
  ∃ b, batches s !! k = Some b ∧ b_settled b = true.

End Page.

(** The three observable cells. *)
Definition observe (s : Page) : list Recipe * bool * option string :=
  (favoriteRecipes s, loading s, error s).

(** The reading of "a superseded batch never alters the observed state": a
    settlement in a batch that is not the last one started changes no
    cell. *)
Definition superseded_batch_is_silent
    (encodeURIComponent : string → string) (null_index_message : string)
  : Prop :=
  ∀ evs k i t,
    let s := run encodeURIComponent null_index_message evs init in
    S k < length (batches s) →
    observe (lookup_settles null_index_message k i t s) = observe s.

(** What the component returns. *)
Inductive View :=
  | Spinner
  | ErrorMessage (message : string)
  | EmptyFavorites
  | FavoritesGrid (cards : list Recipe).

Definition view (s : Page) : View :=
  if loading s then Spinner
  else
    let content :=
      if bool_decide (length (favorites s) = 0) then EmptyFavorites
      else FavoritesGrid (favoriteRecipes s) in
    match error s with
    | Some e => if truthy e then ErrorMessage e else content
    | None => content
    end.

(** The recipe cards on screen. *)
Definition rendered (v : View) : list Recipe :=
  match v with
  | FavoritesGrid cards => cards
  | _ => []
  end.

End Recipes.
Arguments LookupResponse Recipe : clear implicits.
Arguments Transport Recipe : clear implicits.
Arguments Batch Recipe : clear implicits.
Arguments Page Recipe : clear implicits.
Arguments Event Recipe : clear implicits.
Arguments View Recipe : clear implicits.

End FavoritesPage.

(** ** The favorite id set of the specification *)

Module FavoritesModel.

(** A duplicate-free sequence of ids in insertion order. [add] is a no-op
    on an id that is present and otherwise puts it at the end; [remove]
    deletes the id's occurrence; [list] is the sequence itself. *)
Fixpoint add (id : string) (s : list string) : list string :=
  match s with
  | [] => [id]
  | x :: rest => if String.eqb x id then x :: rest else x :: add id rest
  end.

Fixpoint remove (id : string) (s : list string) : list string :=
  match s with
  | [] => []
  | x :: rest => if String.eqb x id then rest else x :: remove id rest
  end.

Definition list (s : list string) : list string := s.

End FavoritesModel.

(** ** A codec for arrays of strings

    A codec in the text format of JSON: compact arrays of double-quoted
    strings in which the double quote and the backslash are escaped by a
    backslash. [stringify] writes what [JSON.stringify] writes for an array
    of strings that hold no control character (those [JSON.stringify]
    escapes, [stringify] does not), and [parse] reads the texts [stringify]
    writes: unlike [JSON.parse] it accepts no whitespace, no other escape
    and no other JSON value. It stands for the platform codec in the closed
    examples, on ids made of digits; the theorems take the codec as a
    parameter. *)

Module JsonStrings.
Import Js.

Definition quote : ascii := Ascii.ascii_of_nat 34.
Definition backslash : ascii := Ascii.ascii_of_nat 92.
Definition comma : ascii := Ascii.ascii_of_nat 44.
Definition lbracket : ascii := Ascii.ascii_of_nat 91.
Definition rbracket : ascii := Ascii.ascii_of_nat 93.

Definition needs_escape (c : ascii) : bool :=
  Ascii.eqb c quote || Ascii.eqb c backslash.

Fixpoint escape (s : string) : string :=
  match s with
  | EmptyString => EmptyString
  | String c rest =>
      if needs_escape c then String backslash (String c (escape rest))
      else String c (escape rest)
  end.

Definition stringify_string (s : string) : string :=
  String quote (escape s +:+ String quote EmptyString).

Fixpoint stringify_items (l : list string) : string :=
  match l with
  | [] => String rbracket EmptyString
  | [x] => stringify_string x +:+ String rbracket EmptyString
  | x :: rest => stringify_string x +:+ String comma (stringify_items rest)
  end.

Definition text (l : list string) : string :=
  String lbracket (stringify_items l).

Definition stringify (l : list string) : Error + string := inr (text l).

Definition SyntaxError : Error :=
  {| is_Error := true; name := "SyntaxError";
     message := "Unexpected token in JSON" |}.

(** Reads a string body up to its closing quote; returns it with the rest
    of the input. *)
Fixpoint read_string (s : string) : option (string * string) :=
  match s with
  | EmptyString => None
  | String c rest =>
      if Ascii.eqb c quote then Some (EmptyString, rest)
      else if Ascii.eqb c backslash then
        match rest with
        | String c2 rest2 =>
            if needs_escape c2
            then prod_map (String c2) id <$> read_string rest2
            else None
        | EmptyString => None
        end
      else prod_map (String c) id <$> read_string rest
  end.

(** Reads [item , item , ... item ]] ; [fuel] bounds the number of items. *)
Fixpoint read_items (fuel : nat) (s : string) : option (list string) :=
  match fuel with
  | O => None
  | S n =>
      match s with
      | String q body =>
          if Ascii.eqb q quote then
            match read_string body with
            | Some (x, String d rest) =>
                if Ascii.eqb d comma then cons x <$> read_items n rest
                else if Ascii.eqb d rbracket then
                  match rest with
                  | EmptyString => Some [x]
                  | _ => None
                  end
                else None
            | _ => None
            end
          else None
      | EmptyString => None
      end
  end.

Definition parse (s : string) : Error + list string :=
  match s with
  | String b rest =>
      if Ascii.eqb b lbracket then
        match rest with
        | String e EmptyString =>
            if Ascii.eqb e rbracket then inr [] else inl SyntaxError
        | _ =>
            match read_items (String.length s) rest with
            | Some l => inr l
            | None => inl SyntaxError
            end
        end
      else inl SyntaxError
  | EmptyString => inl SyntaxError
  end.

End JsonStrings.

(** ** Concrete inputs *)

Module Scenarios.
Import Js UseFetch.

Definition ok_200 : Response := {| status := 200 |}.

(** A browser with an empty store that accepts every write, and one whose
    store refuses every write. *)
Definition empty_browser : UseLocalStorage.World :=
  {| UseLocalStorage.localStorage := Storage.reliable ∅;
     UseLocalStorage.console := [] |}.

Definition full_browser : UseLocalStorage.World :=
  {| UseLocalStorage.localStorage := Storage.full ∅;
     UseLocalStorage.console := [] |}.

(** A favorites slot holding [ids] in browser [w]. *)
Definition slot_of (ids : list string) (w : UseLocalStorage.World)
  : UseLocalStorage.Slot (list string) :=
  {| UseLocalStorage.storedValue := ids; UseLocalStorage.world := w |}.

(** A locator is bound and replaced before its retrieval settles. *)
Definition rebound : list (Event nat) :=
  [Render (Some "a"); Render (Some "b")].

(** A locator is bound and answered with payload [7]. *)
Definition answered : list (Event nat) :=
  [Render (Some "a"); FetchSettles 0 (Fulfilled ok_200);
   JsonSettles 0 (Fulfilled (Some 7))].

(** ... and then a second locator is bound. *)
Definition answered_then_rebound : list (Event nat) :=
  answered ++ [Render (Some "b")].

End Scenarios.

Module PageInputs.
Import Js FavoritesPage.

(** [encodeURIComponent] on ids made of digits, and the message V8 gives the
    [TypeError] of [null[0]]. *)
Definition encode_digits (s : string) : string := s.
Definition v8_null_index : string :=
  "Cannot read properties of null (reading '0')".

(** A recipe as [RecipeCard.tsx] reads it. *)
Record Meal := {
  idMeal : string;
  strMeal : string;
  strMealThumb : string
}.

Definition recipe_1 : Meal :=
  {| idMeal := "1"; strMeal := "Soup"; strMealThumb := "soup.jpg" |}.
Definition recipe_2 : Meal :=
  {| idMeal := "2"; strMeal := "Stew"; strMealThumb := "stew.jpg" |}.

Definition found (r : Meal) : Transport Meal :=
  Responded {| status := 200 |} (Fulfilled {| meals := Some [Some r] |}).

Definition unknown_id : Transport Meal :=
  Responded {| status := 200 |} (Fulfilled {| meals := None |}).

Definition server_error : Transport Meal :=
  Responded {| status := 500 |} (Fulfilled {| meals := None |}).



(** Favorites ["1"; "2"] are hydrated, ["2"] is removed, the new batch
    settles, and then the lookups of the first batch arrive. *)
Definition removed_then_late : list (Event Meal) :=
  [Effect ["1"; "2"]; Effect ["1"]; LookupSettles 1 0 (found recipe_1);
   LookupSettles 0 0 (found recipe_1)].
End PageInputs.

(** ** More about the tracker: settlements and well-formed states *)

Module UseFetchStates.
Import Js UseFetch.

Section States.
Context {T : Type}.

(** A settlement of some retrieval, as opposed to a render or the teardown. *)
Definition is_settlement (ev : Event T) : bool :=
  match ev with
  | FetchSettles _ _ | JsonSettles _ _ => true
  | _ => false
  end.

(** Nothing is left that could write [data] or [error]: every retrieval has
    finished or has had its controller aborted. *)
Definition quiescent (s : Hook T) : Prop :=
  ∀ j r, retrievals s !! j = Some r →
         r_aborted r = true ∨ r_phase r = Finished.

(** The tracker is at rest: not loading and quiescent. *)
Definition at_rest (s : Hook T) : Prop :=
  loading s = false ∧ quiescent s.

(** The bookkeeping of the effect: a torn-down component has no cleanup
    left, and every retrieval was issued for a truthy url. *)
Definition well_formed (s : Hook T) : Prop :=
  (unmounted s = true → cleanup s = None) ∧
  Forall (λ r, truthy (r_url r) = true) (retrievals s).

(** The rejection is one the [catch] block reports. *)
Definition reported (e : Error) : bool :=
  is_Error e && negb (String.eqb (name e) "AbortError").

End States.

End UseFetchStates.

(** ** [RecipeDetailPage]: the favorite button *)

Module FavoriteButton.
Import Js Exn UseLocalStorage Favorites.

Section Button.
Variable JSON_stringify : list string → Error + string.

(** [handleToggleFavorite] of one render of the page: [isRecipeFavorited],
    [addFavorite] and [removeFavorite] all come from the context value of
    that render, whose [favorites] is [rendered]. *)
Definition handleToggleFavorite (rendered : list string) (idMeal : string)
  : M (Slot (list string)) unit :=
  if isFavorite rendered idMeal
  then removeFavorite JSON_stringify rendered idMeal
  else addFavorite JSON_stringify rendered idMeal.

(** What a user can do to the favorites. *)
Inductive Action :=
  | Add (recipeId : string)
  | Remove (recipeId : string)
  | Toggle (idMeal : string).

(** One action on the page as the render with [favorites = rendered]
    shows it. *)
Definition perform (rendered : list string) (a : Action)
  : M (Slot (list string)) unit :=
  match a with
  | Add recipeId => addFavorite JSON_stringify rendered recipeId
  | Remove recipeId => removeFavorite JSON_stringify rendered recipeId
  | Toggle idMeal => handleToggleFavorite rendered idMeal
  end.

(** The actions one after the other with a render after each: every action
    is performed on the page that shows the slot's current value. [Some e]
    is the first exception to escape, if any. *)
Fixpoint perform_all (acts : list Action) (sl : Slot (list string))
  : Slot (list string) * option Error :=
  match acts with
  | [] => (sl, None)
  | a :: rest =>
      match perform (favorites sl) a sl with
      | (sl', inr _) => perform_all rest sl'
      | (sl', inl e) => (sl', Some e)
      end
  end.

End Button.

End FavoriteButton.

(** ** Hydration: the lookups of a batch settle in some order *)

Module Hydration.
Import Js FavoritesPage.

Section Hydration.
Context {Recipe : Type}.

(** The settlements of the lookups [order] of batch [k], lookup [i] settling
    with what the network did for it, [ts !! i]. *)
Definition settle_in_order (k : nat) (ts : list (Transport Recipe))
    (order : list nat) : list (Event Recipe) :=
  omap (λ i, LookupSettles k i <$> ts !! i) order.

(** Batch [k] runs over [ids], its [Promise.all] has not settled, and exactly
    the lookups in [seen] have fulfilled, lookup [j] with the value paired
    with its transport in [tvs]. *)
Definition filled (k : nat) (ids : list string)
    (tvs : list (Transport Recipe * option Recipe)) (seen : list nat)
    (s : Page Recipe) : Prop :=
  ∃ b, batches s !! k = Some b ∧ b_ids b = ids ∧ b_settled b = false ∧
       length (b_results b) = length ids ∧
       ∀ j tv, tvs !! j = Some tv →
               b_results b !! j =
                 Some (if bool_decide (j ∈ seen)
                       then Some (Fulfilled tv.2) else None).

(** The retrieval of [recipeId] fails with [err]: the [fetch] rejects with
    it, the response has a status outside 200-299, or the body fails to
    parse with it. *)
Inductive retrieval_fails (recipeId : string)
  : Transport Recipe → Error → Prop :=
  | fetch_rejects e : retrieval_fails recipeId (NetworkFailure e) e
  | status_not_ok resp body :
      ok resp = false →
      retrieval_fails recipeId (Responded resp body)
        (new_Error ("Failed to fetch recipe " +:+ recipeId))
  | body_unparseable resp e :
      ok resp = true →
      retrieval_fails recipeId (Responded resp (Rejected e)) e.

(** Every [fetch] the page has made is the lookup of an id of a batch, in
    the order the batches were started. *)
Definition requests_of (encodeURIComponent : string → string)
    (bs : list (Batch Recipe)) : list string :=
  bs ≫= (λ b, getRecipeByIdUrl encodeURIComponent <$> b_ids b).

End Hydration.

End Hydration.

(** ** [services/api.ts]: the urls and the ingredient list *)

Module Api.
Import Js.

Section Urls.
Variable encodeURIComponent : string → string.

Definition BASE_URL : string := FavoritesPage.BASE_URL.

Definition getCategoriesUrl : string := BASE_URL +:+ "/categories.php".

Definition getRecipesByCategoryUrl (categoryName : string) : string :=
  BASE_URL +:+ "/filter.php?c=" +:+ encodeURIComponent categoryName.

Definition getRecipeByIdUrl (recipeId : string) : string :=
  FavoritesPage.getRecipeByIdUrl encodeURIComponent recipeId.

Definition searchRecipesUrl (query : string) : string :=
  BASE_URL +:+ "/search.php?s=" +:+ encodeURIComponent query.

(** The locator a page hands to [useFetch]: [param ? url(param) : null],
    where the route parameter may be missing. *)
Definition locator (url : string → string) (param : option string)
  : option string :=
  match param with
  | Some p => if truthy p then Some (url p) else None
  | None => None
  end.

End Urls.

(** One line of the ingredient list. *)
Record Ingredient := {
  ingredient : string;
  measure : string
}.

Section Ingredients.
(** [String.prototype.trim] *)
Variable trim : string → string.

(** [recipe[key]] on a [Record<string, string | null>]: a missing property
    and [null] are both falsy. *)
Definition property (recipe : gmap string (option string)) (key : string)
  : option string :=
  mjoin (recipe !! key).

(** The body of the loop for index [i]: the entry it pushes, if any. *)
Definition entry (recipe : gmap string (option string)) (i : nat)
  : option Ingredient :=
  let ingredient := property recipe ("strIngredient" +:+ pretty i) in
  let measure := property recipe ("strMeasure" +:+ pretty i) in
  match ingredient with
  | Some name =>
      if truthy name && truthy (trim name)
      then Some {| ingredient := trim name;
                   measure := match measure with
                              | Some m => if truthy m then trim m else ""
                              | None => ""
                              end |}
      else None
  | None => None
  end.

(** [for (let i = 1; i <= 20; i++) { ... ingredients.push(...) }] *)
Definition extractIngredients (recipe : gmap string (option string))
  : list Ingredient :=
  foldl (λ ingredients i,
           match entry recipe i with
           | Some x => ingredients ++ [x]
           | None => ingredients
           end)
        [] (seq 1 20).

End Ingredients.

End Api.

(** * Properties *)

(** ** The request-state tracker *)

Module UseFetchFacts.
Import Js UseFetch.

Lemma truthy_or_else s d : truthy d = true → truthy (or_else s d) = true.
Proof. intros Hd. unfold or_else. by destruct (truthy s) eqn:Hs. Qed.

Section Facts.
Context {T : Type}.
Implicit Types (s : Hook T) (ev : Event T) (evs : list (Event T)).

Lemma run_app evs1 evs2 s : run (evs1 ++ evs2) s = run evs2 (run evs1 s).
Proof. unfold run. apply foldl_app. Qed.

Lemma run_snoc evs ev s : run (evs ++ [ev]) s = step (run evs s) ev.
Proof. by rewrite run_app. Qed.

(** Unfolds the setters down to record terms and splits on the mount
    status they test. *)
Ltac unfold_cells :=
  unfold catch_finally, set_phase, setLoading, setData, setError,
    console_error, with_retrievals, with_effect, with_unmounted in *;
  simpl in *.

Ltac split_cells :=
  unfold_cells;
  repeat (case_match; simpl in *; try congruence);
  try done.

(** *** What a settlement of a superseded retrieval can change *)

Lemma catch_finally_abort s :
  catch_finally AbortError s = setLoading false s.
Proof. reflexivity. Qed.

Lemma fetch_settles_superseded i o s r :
  retrievals s !! i = Some r → r_aborted r = true →
  fetch_settles i o s = s ∨
  fetch_settles i o s = setLoading false (set_phase i Finished s).
Proof.
  intros Hr Ha. unfold fetch_settles, observed. rewrite Hr, Ha.
  case_bool_decide; [right | left]; done.
Qed.

Lemma json_settles_superseded i o s r :
  retrievals s !! i = Some r → r_aborted r = true →
  json_settles i o s = s ∨
  json_settles i o s = setLoading false (set_phase i Finished s).
Proof.
  intros Hr Ha. unfold json_settles, observed. rewrite Hr, Ha.
  case_bool_decide; [right | left]; done.
Qed.

(** A superseded retrieval never writes [data] or [error]: no payload and
    no failure of a stale locator reaches the tracker. *)
Lemma superseded_keeps_data_error i s ev :
  superseded i s →
  (∃ o, ev = FetchSettles i o) ∨ (∃ o, ev = JsonSettles i o) →
  data (step s ev) = data s ∧ error (step s ev) = error s.
Proof.
  intros (r & Hr & Ha) [[o ->] | [o ->]]; simpl.
  - destruct (fetch_settles_superseded i o s r Hr Ha) as [-> | ->]; [done |].
    split_cells.
  - destruct (json_settles_superseded i o s r Hr Ha) as [-> | ->]; [done |].
    split_cells.
Qed.

(** The settlement of a superseded retrieval that was still pending stops
    [loading], whatever the current retrieval is doing. *)
Lemma superseded_settlement_stops_loading i o s r :
  unmounted s = false →
  retrievals s !! i = Some r → r_aborted r = true → r_phase r = AwaitFetch →
  loading (fetch_settles i o s) = false.
Proof.
  intros Hm Hr Ha Hp. unfold fetch_settles, observed. rewrite Hr, Ha, Hp.
  rewrite bool_decide_eq_true_2 by done.
  unfold_cells. by rewrite Hm.
Qed.

(** After the teardown no event changes what the tracker held. *)
Lemma teardown_is_silent s ev :
  unmounted s = true → observe (step s ev) = observe s.
Proof.
  intros Hm. destruct ev as [u| |i o|i o]; simpl.
  - unfold render. by rewrite Hm.
  - unfold unmount. by rewrite Hm.
  - unfold fetch_settles. repeat case_match; try done.
    all: unfold observe; split_cells.
  - unfold json_settles. repeat case_match; try done.
    all: unfold observe; split_cells.
Qed.

(** *** Settlements leave the controllers alone *)

Lemma same_controllers_refl s : same_controllers s s.
Proof. done. Qed.

Lemma set_phase_controllers i p s : same_controllers s (set_phase i p s).
Proof.
  unfold same_controllers, set_phase. simpl. repeat split; try done.
  intros j. rewrite list_lookup_alter. case_decide; [subst|done].
  by destruct (retrievals s !! j).
Qed.

Lemma same_controllers_trans s1 s2 s3 :
  same_controllers s1 s2 → same_controllers s2 s3 → same_controllers s1 s3.
Proof.
  intros (?&?&?&Ha) (?&?&?&Hb). repeat split; try congruence.
Qed.

Lemma setLoading_controllers b s : same_controllers s (setLoading b s).
Proof. unfold same_controllers. split_cells. Qed.

Lemma setData_controllers v s : same_controllers s (setData v s).
Proof. unfold same_controllers. split_cells. Qed.

Lemma catch_finally_controllers e s : same_controllers s (catch_finally e s).
Proof. unfold same_controllers. split_cells. Qed.

Lemma fetch_settles_controllers i o s : same_controllers s (fetch_settles i o s).
Proof.
  unfold fetch_settles.
  repeat case_match; try apply same_controllers_refl;
    eauto using same_controllers_trans, set_phase_controllers,
      catch_finally_controllers.
Qed.

Lemma json_settles_controllers i o s : same_controllers s (json_settles i o s).
Proof.
  unfold json_settles.
  repeat case_match; try apply same_controllers_refl;
    eauto using same_controllers_trans, set_phase_controllers,
      catch_finally_controllers, setLoading_controllers, setData_controllers.
Qed.

Lemma current_only_controllers s s' :
  same_controllers s s' → current_only s → current_only s'.
Proof.
  intros (Hc & _ & _ & Hr) Hs i r Hi Ha. rewrite Hc.
  specialize (Hr i). rewrite Hi in Hr. simpl in Hr.
  destruct (retrievals s !! i) as [r0|] eqn:E; [|done].
  apply (Hs i r0 E). simpl in Hr. congruence.
Qed.

(** *** After the cleanup every controller is aborted *)

Lemma run_cleanup_all_aborted s :
  current_only s →
  ∀ i r, retrievals (run_cleanup s) !! i = Some r → r_aborted r = true.
Proof.
  intros Hs i r. unfold run_cleanup.
  destruct (cleanup s) as [c|] eqn:Hc; simpl.
  - rewrite list_lookup_alter. case_decide as Hd.
    + subst. destruct (retrievals s !! i); simpl; [|done]. by intros [= <-].
    + intros Hi. destruct (r_aborted r) eqn:Ha; [done|].
      specialize (Hs i r Hi Ha). congruence.
  - intros Hi. destruct (r_aborted r) eqn:Ha; [done|].
    specialize (Hs i r Hi Ha). congruence.
Qed.

Lemma run_cleanup_length s :
  length (retrievals (run_cleanup s)) = length (retrievals s).
Proof. unfold run_cleanup. case_match; simpl; [apply length_alter|done]. Qed.

Lemma run_cleanup_cells s :
  observe (run_cleanup s) = observe s ∧ unmounted (run_cleanup s) = unmounted s.
Proof. unfold run_cleanup. by case_match. Qed.

Lemma render_current_only u s : current_only s → current_only (render u s).
Proof.
  intros Hs. unfold render. case_match; [done|]. case_bool_decide; [done|].
  pose proof (run_cleanup_all_aborted s Hs) as Hall.
  pose proof (run_cleanup_length s) as Hlen.
  destruct (run_cleanup_cells s) as [_ Hm].
  set (s1 := run_cleanup s) in *. clearbody s1.
  unfold run_effect.
  assert (current_only (with_effect u None s1)) as Hidle.
  { intros i r Hi Ha. simpl in Hi. apply Hall in Hi. congruence. }
  destruct u as [a|]; [|done]. case_match; [done|].
  intros i r Hi Ha. unfold start_fetch in *. revert Hi. split_cells.
  all: intros Hi; apply lookup_app_Some in Hi as [Hi | [Hge Hi]];
    try (apply Hall in Hi; congruence).
  all: apply list_lookup_singleton_Some in Hi as [Hi _]; f_equal; lia.
Qed.

Lemma unmount_current_only s : current_only s → current_only (unmount s).
Proof.
  intros Hs. unfold unmount. case_match; [done|].
  intros i r Hi Ha. simpl in Hi.
  apply (run_cleanup_all_aborted s Hs) in Hi. congruence.
Qed.

Lemma step_current_only s ev : current_only s → current_only (step s ev).
Proof.
  destruct ev; simpl.
  - apply render_current_only.
  - apply unmount_current_only.
  - apply current_only_controllers, fetch_settles_controllers.
  - apply current_only_controllers, json_settles_controllers.
Qed.

Lemma run_invariant (P : Hook T → Prop) evs s :
  (∀ s ev, P s → P (step s ev)) → P s → P (run evs s).
Proof.
  intros Hstep. revert s. induction evs as [|ev evs IH]; intros s Hs; [done|].
  simpl. apply IH, Hstep, Hs.
Qed.

Lemma reachable_current_only evs : current_only (run evs (init (T:=T))).
Proof. apply run_invariant; [apply step_current_only|]. intros i r Hi. done. Qed.


(** *** Pending and failed exclude each other *)

Lemma step_consistent s ev : consistent s → consistent (step s ev).
Proof.
  intros [Hl He]. destruct ev as [u| |i o|i o]; simpl.
  - unfold render. case_match; [done|]. case_bool_decide; [done|].
    destruct (run_cleanup_cells s) as [Hobs Hm].
    unfold observe in Hobs. injection Hobs as Hd Hlo Her.
    unfold run_effect.
    assert (consistent (with_effect u None (run_cleanup s))) as Hidle.
    { split; simpl; rewrite ?Hlo, ?Her; auto. }
    destruct u as [a|]; [|done]. case_match; [done|].
    unfold start_fetch, consistent. split_cells.
  - unfold unmount. case_match; [done|].
    destruct (run_cleanup_cells s) as [Hobs Hm].
    unfold observe in Hobs. injection Hobs as Hd Hlo Her.
    split; simpl; rewrite ?Hlo, ?Her; auto.
  - unfold fetch_settles. repeat case_match; try done.
    all: unfold consistent; split_cells.
    all: split; [done|]; intros ? [= <-]; by apply truthy_or_else.
  - unfold json_settles. repeat case_match; try done.
    all: unfold consistent; split_cells.
    all: split; [done|]; intros ? [= <-]; by apply truthy_or_else.
Qed.

Lemma reachable_consistent evs : consistent (run evs (init (T:=T))).
Proof. apply run_invariant; [apply step_consistent|]. by split. Qed.

(** *** A new locator *)

Lemma render_new_locator s a :
  truthy a = true → unmounted s = false → deps s ≠ Some (Some a) →
  render (Some a) s = start_fetch a (run_cleanup s).
Proof.
  intros Ha Hm Hd. unfold render. rewrite Hm.
  rewrite bool_decide_eq_false_2 by done.
  unfold run_effect, is_sentinel. by rewrite Ha.
Qed.

Lemma start_fetch_cells a s :
  unmounted s = false →
  let s' := start_fetch a s in
  loading s' = true ∧ error s' = None ∧ data s' = data s ∧
  unmounted s' = false ∧
  retrievals s' =
    retrievals s ++ [{| r_url := a; r_aborted := false; r_phase := AwaitFetch |}].
Proof. intros Hm. unfold start_fetch. split_cells. Qed.

Lemma render_awaiting s a :
  current_only s →
  truthy a = true → unmounted s = false → deps s ≠ Some (Some a) →
  awaiting (length (retrievals s)) AwaitFetch (render (Some a) s).
Proof.
  intros Hs Ha Hm Hd. rewrite render_new_locator by done.
  destruct (run_cleanup_cells s) as [_ Hm1]. rewrite Hm in Hm1.
  destruct (start_fetch_cells a (run_cleanup s) Hm1) as (_ & He & _ & Hu & Hr).
  rewrite <- (run_cleanup_length s).
  repeat split; try done.
  - exists a. rewrite Hr. by rewrite list_lookup_middle.
  - intros j r Hj. rewrite Hr. intros Hl.
    apply lookup_app_Some in Hl as [Hl | [Hge Hl]].
    + by apply (run_cleanup_all_aborted s Hs j).
    + apply list_lookup_singleton_Some in Hl as [Hl _]. lia.
Qed.

(** *** Settlements of the other retrievals *)

Lemma awaiting_stale_phase i p j s :
  j ≠ i → awaiting i p s → awaiting i p (setLoading false (set_phase j Finished s)).
Proof.
  intros Hj (Hm & He & [a Hi] & Hall).
  unfold awaiting. unfold_cells. rewrite Hm. simpl.
  repeat split; try done.
  - exists a. by rewrite list_lookup_alter_ne.
  - intros k r Hk. rewrite list_lookup_alter. case_decide; [subst|by apply Hall].
    destruct (retrievals s !! k) as [r0|] eqn:E; [|done]. simpl.
    intros [= <-]. simpl. by apply (Hall k r0).
Qed.

Lemma awaiting_settles_other i p s ev :
  settles_other i ev = true → awaiting i p s → awaiting i p (step s ev).
Proof.
  intros Hev Hs. pose proof Hs as (_ & _ & _ & Hall).
  destruct ev as [u| |j o|j o]; simpl in *; try done.
  - apply negb_true_iff, Nat.eqb_neq in Hev.
    destruct (retrievals s !! j) as [r|] eqn:Hr.
    + destruct (fetch_settles_superseded j o s r Hr (Hall j r Hev Hr)) as [-> | ->];
        [done | by apply awaiting_stale_phase].
    + unfold fetch_settles. by rewrite Hr.
  - apply negb_true_iff, Nat.eqb_neq in Hev.
    destruct (retrievals s !! j) as [r|] eqn:Hr.
    + destruct (json_settles_superseded j o s r Hr (Hall j r Hev Hr)) as [-> | ->];
        [done | by apply awaiting_stale_phase].
    + unfold json_settles. by rewrite Hr.
Qed.

Lemma awaiting_run_others i p s evs :
  Forall (λ ev, settles_other i ev = true) evs →
  awaiting i p s → awaiting i p (run evs s).
Proof.
  intros Hevs. revert s. induction Hevs as [|ev evs Hev _ IH]; intros s Hs; [done|].
  simpl. by apply IH, awaiting_settles_other.
Qed.

(** *** The live retrieval answers *)

Lemma awaiting_fetch_ok i s resp :
  ok resp = true → awaiting i AwaitFetch s →
  awaiting i AwaitJson (fetch_settles i (Fulfilled resp) s).
Proof.
  intros Hok (Hm & He & [a Hi] & Hall).
  unfold fetch_settles, observed. rewrite Hi. simpl. rewrite Hok. simpl.
  unfold awaiting, set_phase. simpl. repeat split; try done.
  - exists a. rewrite list_lookup_alter_eq, Hi. done.
  - intros k r Hk. rewrite list_lookup_alter_ne by done. by apply Hall.
Qed.

Lemma awaiting_json_ok i s (p : T) :
  awaiting i AwaitJson s →
  succeeded_with p (json_settles i (Fulfilled (Some p)) s).
Proof.
  intros (Hm & He & [a Hi] & Hall).
  unfold json_settles, observed. rewrite Hi. simpl.
  unfold succeeded_with. unfold_cells. rewrite Hm. simpl.
  repeat split; try done.
  intros k r. rewrite list_lookup_alter. case_decide.
  - subst. rewrite Hi. simpl. intros [= <-]. by right.
  - intros Hk. left. by apply (Hall k r).
Qed.

(** *** Once succeeded, nothing is left to change the payload *)

Lemma succeeded_with_settle (p : T) s ev :
  (∃ j, settles_other j ev = true) →
  succeeded_with p s → succeeded_with p (step s ev).
Proof.
  intros [j0 Hev] (Hd & He & Hl & Hall).
  assert (∀ j, succeeded_with p (setLoading false (set_phase j Finished s))) as Hfin.
  { intros j. unfold succeeded_with. unfold_cells.
    destruct (unmounted s); simpl; repeat split; try done.
    all: intros k r; rewrite list_lookup_alter; case_decide; [subst|by apply Hall].
    all: destruct (retrievals s !! k) as [r0|] eqn:E; [|done]; simpl.
    all: intros [= <-]; by right. }
  destruct ev as [u| |j o|j o]; simpl in *; try done.
  - unfold fetch_settles. destruct (retrievals s !! j) as [r|] eqn:Hr; [|done].
    case_bool_decide as Hp; [|done].
    destruct (Hall j r Hr) as [Ha | Hf]; [|congruence].
    unfold observed. rewrite Ha. apply Hfin.
  - unfold json_settles. destruct (retrievals s !! j) as [r|] eqn:Hr; [|done].
    case_bool_decide as Hp; [|done].
    destruct (Hall j r Hr) as [Ha | Hf]; [|congruence].
    unfold observed. rewrite Ha. apply Hfin.
Qed.

Lemma succeeded_with_run (p : T) i s evs :
  Forall (λ ev, settles_other i ev = true) evs →
  succeeded_with p s → succeeded_with p (run evs s).
Proof.
  intros Hevs. revert s. induction Hevs as [|ev evs Hev _ IH]; intros s Hs; [done|].
  simpl. apply IH, succeeded_with_settle; eauto.
Qed.

(** A well-formed answer to the current locator resolves the tracker to the
    succeeded outcome with that payload, whatever the retrievals of earlier
    locators do in the meantime and afterwards. *)
Lemma current_answer_succeeds evs a resp (p : T) noise1 noise2 noise3 :
  let s := run evs init in
  let i := length (retrievals s) in
  truthy a = true → unmounted s = false → deps s ≠ Some (Some a) →
  ok resp = true →
  Forall (λ ev, settles_other i ev = true) (noise1 ++ noise2 ++ noise3) →
  succeeded_with p
    (run ([Render (Some a)] ++ noise1 ++ [FetchSettles i (Fulfilled resp)] ++
          noise2 ++ [JsonSettles i (Fulfilled (Some p))] ++ noise3) s).
Proof.
  intros s i Ha Hm Hd Hok Hnoise.
  apply Forall_app in Hnoise as [Hn1 Hnoise].
  apply Forall_app in Hnoise as [Hn2 Hn3].
  rewrite !run_app. simpl.
  apply (succeeded_with_run p i); [done|].
  apply awaiting_json_ok, awaiting_run_others; [done|].
  apply awaiting_fetch_ok; [done|].
  apply awaiting_run_others; [done|].
  apply render_awaiting; try done. apply reachable_current_only.
Qed.

End Facts.

End UseFetchFacts.

(** ** Claims about the request-state tracker *)

Module TrackerClaims.
Import Js UseFetch UseFetchFacts Scenarios CategoryPage.

(** C1, at the input on which the code departs from it: locator ["a"] is
    bound and, before its retrieval settles, replaced by ["b"]. However the
    retrieval of ["a"] then settles, it is observed as aborted: it leaves
    [data] and [error] alone, but its [finally] block sets [loading] to
    [false] although the retrieval of ["b"] is still in flight. *)
Theorem superseded_retrieval_stops_loading (T : Type) (o : Settled Response) :
  let s := run [Render (Some "a"); Render (Some "b")] (init (T:=T)) in
  let s' := step s (FetchSettles 0 o) in
  superseded 0 s ∧ in_flight 1 s ∧ loading s = true ∧
  in_flight 1 s' ∧ loading s' = false ∧
  data s' = data s ∧ error s' = error s.
Proof.
  intros s s'.
  assert (superseded 0 s) as Hsup by (eexists; split; [reflexivity|done]).
  assert (in_flight 1 s) as Hfl by (eexists; split; [reflexivity|done]).
  destruct (superseded_keeps_data_error 0 s (FetchSettles 0 o) Hsup) as [Hd He];
    [left; by exists o|].
  split; [done|]. split; [done|]. split; [reflexivity|].
  split; [eexists; split; [reflexivity|done]|].
  split; [reflexivity|done].
Qed.

(** The settlement of a superseded retrieval is not silent. *)
Lemma superseded_not_silent : ¬ superseded_is_silent (T:=nat).
Proof.
  intros H.
  pose proof (H rebound 0 (Fulfilled ok_200)) as Hsilent.
  cbv zeta in Hsilent.
  assert (loading (step (run rebound init) (FetchSettles 0 (Fulfilled ok_200)))
          = loading (run rebound init)) as Hload.
  { unfold observe in Hsilent. injection Hsilent; [done|].
    eexists; split; [reflexivity|done]. }
  revert Hload. vm_compute. discriminate.
Qed.

(** C2 as stated fails: after a succeeded retrieval a new locator makes the
    tracker pending while the old payload is still in [data]. *)
Lemma stale_payload_while_pending :
  ¬ ∀ evs : list (Event nat), no_stale_payload (run evs init).
Proof.
  intros H. specialize (H answered_then_rebound (or_introl eq_refl)).
  revert H. vm_compute. discriminate.
Qed.

(** C2, amended: at every instant pending and failed exclude each other (and
    a failure message is never empty); binding a new non-sentinel locator
    makes the tracker pending and clears the previous error, issues one
    retrieval, and leaves the previous payload in [data]. *)
Theorem pending_clears_error_keeps_payload (T : Type) (evs : list (Event T)) a :
  let s := run evs init in
  let s' := step s (Render (Some a)) in
  truthy a = true → unmounted s = false → deps s ≠ Some (Some a) →
  consistent s ∧ consistent s' ∧
  loading s' = true ∧ error s' = None ∧ data s' = data s ∧
  in_flight (length (retrievals s)) s'.
Proof.
  intros s s' Ha Hm Hd.
  pose proof (reachable_consistent evs) as Hc. fold s in Hc.
  split; [done|]. split; [by apply step_consistent|].
  subst s'. simpl. rewrite render_new_locator by done.
  destruct (run_cleanup_cells s) as [Hobs Hm1]. rewrite Hm in Hm1.
  injection Hobs as Hdata _ _.
  destruct (start_fetch_cells a (run_cleanup s) Hm1) as (Hl & He & Hdt & _ & Hr).
  rewrite Hdt, Hdata. repeat split; try done.
  eexists. split.
  - rewrite Hr, <- (run_cleanup_length s). by rewrite list_lookup_middle.
  - done.
Qed.

Lemma pending_clears_error_keeps_payload_witness :
  let s := run [Render (Some "a"); FetchSettles 0 (Fulfilled ok_200);
                JsonSettles 0 (Fulfilled (Some 7))] (init (T:=nat)) in
  let s' := step s (Render (Some "b")) in
  consistent s ∧ consistent s' ∧
  loading s' = true ∧ error s' = None ∧ data s' = data s ∧
  in_flight (length (retrievals s)) s'.
Proof.
  apply (pending_clears_error_keeps_payload nat
           [Render (Some "a"); FetchSettles 0 (Fulfilled ok_200);
            JsonSettles 0 (Fulfilled (Some 7))] "b").
  - reflexivity.
  - vm_compute. reflexivity.
  - vm_compute. discriminate.
Defined.

(** C3 as stated fails: the sentinel bound after a succeeded retrieval
    leaves the payload in [data]. *)
Lemma sentinel_after_success_not_idle : ¬ sentinel_yields_idle (T:=nat).
Proof.
  intros H. specialize (H answered).
  destruct H as [Hd _]. revert Hd. vm_compute. discriminate.
Qed.

(** C3, amended: binding a sentinel locator ([null] or the empty string)
    issues no retrieval and leaves [data], [error] and [loading] as they
    were; on a tracker that has bound nothing before, that is the idle
    outcome. *)
Theorem sentinel_issues_nothing_keeps_cells (T : Type) (s : Hook T) u :
  is_sentinel u = true →
  let s' := step s (Render u) in
  observe s' = observe s ∧
  length (retrievals s') = length (retrievals s) ∧
  r_url <$> retrievals s' = r_url <$> retrievals s ∧
  idle (step (init (T:=T)) (Render u)).
Proof.
  intros Hu s'. subst s'. simpl.
  assert (render u s = s ∨ render u s = with_effect u None (run_cleanup s)) as Hr.
  { unfold render. case_match; [by left|]. case_bool_decide; [by left|].
    right. unfold run_effect. destruct u; [by rewrite Hu|done]. }
  assert (idle (render u (init (T:=T)))) as Hidle.
  { destruct u as [a|]; unfold render, run_effect; simpl;
      [simpl in Hu; rewrite Hu|]; done. }
  destruct Hr as [-> | ->]; [done|].
  destruct (run_cleanup_cells s) as [Hobs _].
  split; [exact Hobs|]. split; [apply run_cleanup_length|]. split; [|done].
  simpl. unfold run_cleanup. case_match; [|done]. simpl.
  apply list_eq. intros j. rewrite !list_lookup_fmap, list_lookup_alter.
  case_decide; [subst|done]. by destruct (retrievals s !! j).
Qed.

Lemma sentinel_issues_nothing_keeps_cells_witness :
  let s := run answered (init (T:=nat)) in
  let s' := step s (Render None) in
  observe s' = observe s ∧
  length (retrievals s') = length (retrievals s) ∧
  r_url <$> retrievals s' = r_url <$> retrievals s ∧
  idle (step (init (T:=nat)) (Render None)).
Proof.
  intros s. apply (sentinel_issues_nothing_keeps_cells nat s None). reflexivity.
Defined.

(** C9: a new non-sentinel locator whose retrieval gets a success status
    and the parseable body [{ meals: null }] resolves the tracker to
    succeeded with that payload, a null error and [loading] false, and
    [CategoryPage] shows its "no recipes" view, not the error view. This holds
    from every reachable state and whatever the retrievals of earlier
    locators do before, between and after the two settlements. *)
Theorem meals_null_resolves_succeeded (Recipe : Type)
    (evs : list (Event (RecipesByCategoryResponse Recipe)))
    a resp noise1 noise2 noise3 :
  let s := run evs init in
  let i := length (retrievals s) in
  let p := {| meals := None |} in
  let s' := run ([Render (Some a)] ++ noise1 ++
                 [FetchSettles i (Fulfilled resp)] ++ noise2 ++
                 [JsonSettles i (Fulfilled (Some p))] ++ noise3) s in
  truthy a = true → unmounted s = false → deps s ≠ Some (Some a) →
  ok resp = true →
  Forall (λ ev, settles_other i ev = true) (noise1 ++ noise2 ++ noise3) →
  data s' = Some p ∧ error s' = None ∧ loading s' = false ∧
  view s' = NoResults.
Proof.
  intros s i p s' Ha Hm Hd Hok Hnoise.
  destruct (current_answer_succeeds evs a resp p noise1 noise2 noise3
              Ha Hm Hd Hok Hnoise) as (Hdata & Herr & Hload & _).
  fold s i s' in Hdata, Herr, Hload.
  split; [done|]. split; [done|]. split; [done|].
  unfold view. by rewrite Hload, Herr, Hdata.
Qed.

Lemma meals_null_resolves_succeeded_witness :
  let s := run [Render (Some "a")]
             (init (T:=RecipesByCategoryResponse string)) in
  let i := length (retrievals s) in
  let p := {| meals := None |} in
  let s' := run ([Render (Some "c=Nothing")] ++
                 [FetchSettles 0 (Fulfilled ok_200)] ++
                 [FetchSettles i (Fulfilled ok_200)] ++ [] ++
                 [JsonSettles i (Fulfilled (Some p))] ++ []) s in
  data s' = Some p ∧ error s' = None ∧ loading s' = false ∧
  view s' = NoResults.
Proof.
  apply (meals_null_resolves_succeeded string
           [Render (Some "a")] "c=Nothing" ok_200
           [FetchSettles 0 (Fulfilled ok_200)] [] []).
  - reflexivity.
  - vm_compute. reflexivity.
  - vm_compute. discriminate.
  - reflexivity.
  - repeat constructor.
Defined.

End TrackerClaims.

(** ** The codec for arrays of strings *)

Module JsonStringsFacts.
Import Js JsonStrings.

Lemma append_cons (x : ascii) (a b : string) :
  String x a +:+ b = String x (a +:+ b).
Proof. reflexivity. Qed.

Lemma append_assoc (a b c : string) : (a +:+ b) +:+ c = a +:+ (b +:+ c).
Proof.
  induction a as [|x a IH]; [done|]. rewrite !append_cons. by f_equal.
Qed.

(** Reading back an escaped string body stops at its closing quote. *)
Lemma read_string_escape s rest :
  read_string (escape s +:+ String quote rest) = Some (s, rest).
Proof.
  induction s as [|c s IH]; simpl; [done|].
  destruct (needs_escape c) eqn:Hc; simpl.
  - rewrite Hc, IH. done.
  - unfold needs_escape in Hc. apply orb_false_iff in Hc as [Hq Hb].
    rewrite Hq, Hb, IH. done.
Qed.

Lemma stringify_string_append s rest :
  stringify_string s +:+ rest = String quote (escape s +:+ String quote rest).
Proof.
  unfold stringify_string. by rewrite append_cons, append_assoc.
Qed.

Lemma stringify_items_last x :
  stringify_items [x] = String quote (escape x +:+ String quote (String rbracket "")).
Proof. apply stringify_string_append. Qed.

Lemma stringify_items_more x y l :
  stringify_items (x :: y :: l) =
  String quote (escape x +:+
                String quote (String comma (stringify_items (y :: l)))).
Proof. apply stringify_string_append. Qed.

Lemma read_items_stringify l fuel :
  l ≠ [] → length l ≤ fuel → read_items fuel (stringify_items l) = Some l.
Proof.
  revert fuel. induction l as [|x l IH]; intros fuel Hne Hlen; [done|].
  destruct fuel as [|n]; [simpl in Hlen; lia|].
  destruct l as [|y l].
  - rewrite stringify_items_last.
    cbn [read_items]. rewrite Ascii.eqb_refl, read_string_escape. done.
  - rewrite stringify_items_more.
    cbn [read_items]. rewrite Ascii.eqb_refl, read_string_escape.
    change (Ascii.eqb comma comma) with true. cbv iota.
    rewrite IH; [done|done|]. simpl in *. lia.
Qed.

Lemma length_append_r (a b : string) :
  String.length b ≤ String.length (a +:+ b).
Proof.
  induction a as [|x a IH]; [done|]. rewrite append_cons.
  cbn [String.length]. lia.
Qed.

Lemma length_cons (c : ascii) (s : string) :
  String.length (String c s) = S (String.length s).
Proof. reflexivity. Qed.

Lemma length_stringify_items l : length l ≤ String.length (stringify_items l).
Proof.
  induction l as [|x l IH]; [cbn; lia|].
  destruct l as [|y l].
  - rewrite stringify_items_last, length_cons. apply le_n_S, Nat.le_0_l.
  - rewrite stringify_items_more, length_cons.
    pose proof (length_append_r (escape x)
                  (String quote (String comma (stringify_items (y :: l))))) as H.
    rewrite !length_cons in H. revert IH H.
    generalize (String.length (stringify_items (y :: l))).
    generalize (String.length
                  (escape x +:+
                   String quote (String comma (stringify_items (y :: l))))).
    cbn [length]. intros. lia.
Qed.

(** The codec reads back what it writes, and never writes the empty text. *)
Lemma parse_text l : parse (text l) = inr l.
Proof.
  destruct l as [|x l]; [done|].
  unfold parse, text. change (Ascii.eqb lbracket lbracket) with true. cbv iota.
  pose proof (length_stringify_items (x :: l)) as Hlen.
  rewrite read_items_stringify; [|done|rewrite length_cons; lia].
  destruct l; [rewrite stringify_items_last|rewrite stringify_items_more].
  - destruct (escape x); done.
  - destruct (escape x); done.
Qed.

Lemma truthy_text l : truthy (text l) = true.
Proof. done. Qed.

End JsonStringsFacts.

(** ** The persisted slot and the favorites access point *)

Module SlotFacts.
Import Js Exn UseLocalStorage.

Section Facts.
Context {T : Type}.
Variable JSON_stringify : T → Error + string.
Variable JSON_parse : string → Error + T.
Implicit Types (sl : Slot T) (w : World) (value : T + (T → T)) (rendered : T).

(** [setValue], case by case. *)
Lemma setValue_unfold key rendered value sl :
  let v := valueToStore value rendered in
  setValue JSON_stringify key rendered value sl =
    match JSON_stringify v with
    | inl e =>
        ({| storedValue := v;
            world := console_error (setting_message key) e (world sl) |},
         inr tt)
    | inr text =>
        match Storage.setItem key text (localStorage (world sl)) with
        | inl e =>
            ({| storedValue := v;
                world := console_error (setting_message key) e (world sl) |},
             inr tt)
        | inr st =>
            ({| storedValue := v;
                world := {| localStorage := st;
                            console := console (world sl) |} |},
             inr tt)
        end
    end.
Proof.
  intros v. subst v.
  unfold setValue, try_catch, bind, setStoredValue, modify, lift, setItem,
    slot_console_error, valueToStore, setting_message.
  simpl. destruct (JSON_stringify _) as [e|text]; simpl; [done|].
  by destruct (Storage.setItem _ _ _).
Qed.

(** [setValue] never throws and always stores the new value in memory. *)
Lemma setValue_total key rendered value sl :
  outcome (setValue JSON_stringify key rendered value) sl = inr tt ∧
  storedValue (exec (setValue JSON_stringify key rendered value) sl)
    = valueToStore value rendered.
Proof.
  unfold outcome, exec. rewrite setValue_unfold.
  destruct (JSON_stringify _); [done|]. by destruct (Storage.setItem _ _ _).
Qed.

(** A write the store accepts leaves the serialised value under the key. *)
Lemma setValue_persists key rendered value sl text :
  JSON_stringify (valueToStore value rendered) = inr text →
  Storage.setItem_error (localStorage (world sl)) key text = None →
  let sl' := exec (setValue JSON_stringify key rendered value) sl in
  Storage.items (localStorage (world sl')) !! key = Some text ∧
  Storage.getItem_error (localStorage (world sl'))
    = Storage.getItem_error (localStorage (world sl)) ∧
  console (world sl') = console (world sl).
Proof.
  intros Hs Hw. unfold exec. rewrite setValue_unfold. rewrite Hs.
  unfold Storage.setItem. rewrite Hw. simpl.
  by rewrite lookup_insert_eq.
Qed.

(** A write the store refuses is logged; the store keeps what it had. *)
Lemma setValue_refused key rendered value sl text e :
  JSON_stringify (valueToStore value rendered) = inr text →
  Storage.setItem_error (localStorage (world sl)) key text = Some e →
  let sl' := exec (setValue JSON_stringify key rendered value) sl in
  localStorage (world sl') = localStorage (world sl) ∧
  console (world sl') = console (world sl) ++ [(setting_message key, e)].
Proof.
  intros Hs Hw. unfold exec. rewrite setValue_unfold. rewrite Hs.
  unfold Storage.setItem. by rewrite Hw.
Qed.

(** [setValue] changes nothing in how the store fails. *)
Lemma setValue_store_errors key rendered value sl :
  let sl' := exec (setValue JSON_stringify key rendered value) sl in
  Storage.getItem_error (localStorage (world sl'))
    = Storage.getItem_error (localStorage (world sl)) ∧
  Storage.setItem_error (localStorage (world sl'))
    = Storage.setItem_error (localStorage (world sl)).
Proof.
  intros sl'. subst sl'. unfold exec. rewrite setValue_unfold.
  destruct (JSON_stringify _) as [e|text]; simpl; [done|].
  unfold Storage.setItem.
  by destruct (Storage.setItem_error _ _ _) as [e|]; simpl.
Qed.

(** The initialiser, case by case. *)
Lemma useLocalStorage_stored key initialValue w text v :
  Storage.getItem_error (localStorage w) = None →
  Storage.items (localStorage w) !! key = Some text →
  truthy text = true → JSON_parse text = inr v →
  useLocalStorage JSON_parse key initialValue w
    = {| storedValue := v; world := w |}.
Proof.
  intros Hr Hk Ht Hp.
  unfold useLocalStorage, initialise, try_catch, bind, getItem, Storage.getItem.
  rewrite Hr, Hk. simpl. rewrite Ht, Hp. done.
Qed.

(** Initialisation reads back what [setValue] wrote. *)
Lemma slot_round_trip key initialValue rendered value sl text :
  JSON_stringify (valueToStore value rendered) = inr text →
  JSON_parse text = inr (valueToStore value rendered) →
  truthy text = true →
  Storage.setItem_error (localStorage (world sl)) key text = None →
  Storage.getItem_error (localStorage (world sl)) = None →
  let sl' := exec (setValue JSON_stringify key rendered value) sl in
  useLocalStorage JSON_parse key initialValue (world sl') = sl'.
Proof.
  intros Hs Hp Ht Hw Hr sl'.
  destruct (setValue_total key rendered value sl) as [_ Hv].
  destruct (setValue_persists key rendered value sl text Hs Hw) as (Hk & Hg & _).
  fold sl' in Hv, Hk, Hg. rewrite <- Hg in Hr.
  rewrite (useLocalStorage_stored key initialValue (world sl') text
             (valueToStore value rendered) Hr Hk Ht Hp).
  rewrite <- Hv. by destruct sl'.
Qed.

Lemma useLocalStorage_absent key initialValue w :
  Storage.getItem_error (localStorage w) = None →
  Storage.items (localStorage w) !! key = None →
  useLocalStorage JSON_parse key initialValue w
    = {| storedValue := initialValue; world := w |}.
Proof.
  intros Hr Hk.
  unfold useLocalStorage, initialise, try_catch, bind, getItem, Storage.getItem.
  by rewrite Hr, Hk.
Qed.

Lemma useLocalStorage_unparseable key initialValue w text e :
  Storage.getItem_error (localStorage w) = None →
  Storage.items (localStorage w) !! key = Some text →
  truthy text = true → JSON_parse text = inl e →
  useLocalStorage JSON_parse key initialValue w
    = {| storedValue := initialValue;
         world := console_error (reading_message key) e w |}.
Proof.
  intros Hr Hk Ht Hp.
  unfold useLocalStorage, initialise, try_catch, bind, getItem, Storage.getItem.
  rewrite Hr, Hk. simpl. rewrite Ht, Hp. done.
Qed.

Lemma useLocalStorage_unreadable key initialValue w e :
  Storage.getItem_error (localStorage w) = Some e →
  useLocalStorage JSON_parse key initialValue w
    = {| storedValue := initialValue;
         world := console_error (reading_message key) e w |}.
Proof.
  intros Hr.
  unfold useLocalStorage, initialise, try_catch, bind, getItem, Storage.getItem.
  by rewrite Hr.
Qed.

End Facts.
End SlotFacts.

Module FavoritesFacts.
Import Js Exn UseLocalStorage Favorites SlotFacts.

(** The updaters are the operations of the model. *)
Lemma add_updater_cons_ne x id s :
  x ≠ id → add_updater id (x :: s) = x :: add_updater id s.
Proof.
  intros Hne. unfold add_updater.
  destruct (decide (id ∈ s)) as [Hin|Hin].
  - rewrite !bool_decide_eq_true_2; [done|done|]. by apply list_elem_of_further.
  - rewrite !bool_decide_eq_false_2; [done|done|].
    apply not_elem_of_cons. split; [congruence|done].
Qed.

Lemma add_updater_model id s : add_updater id s = FavoritesModel.add id s.
Proof.
  induction s as [|x s IH]; [done|]. simpl.
  destruct (String.eqb_spec x id) as [->|Hne].
  - unfold add_updater. rewrite bool_decide_eq_true_2; [done|].
    apply list_elem_of_here.
  - by rewrite add_updater_cons_ne, IH.
Qed.

Lemma remove_updater_absent id s : id ∉ s → remove_updater id s = s.
Proof.
  unfold remove_updater. induction s as [|x s IH]; intros Hin; [done|].
  apply not_elem_of_cons in Hin as [Hne Hin].
  rewrite filter_cons_True by done. by rewrite IH.
Qed.

Lemma remove_updater_model id s :
  NoDup s → remove_updater id s = FavoritesModel.remove id s.
Proof.
  intros Hnd. induction Hnd as [|x s Hx Hnd IH]; [done|]. simpl.
  destruct (String.eqb_spec x id) as [->|Hne].
  - unfold remove_updater. rewrite filter_cons_False by naive_solver.
    by apply remove_updater_absent.
  - unfold remove_updater in *. rewrite filter_cons_True by done. by rewrite IH.
Qed.

Lemma add_updater_NoDup id s : NoDup s → NoDup (add_updater id s).
Proof.
  intros Hnd. unfold add_updater. case_bool_decide as Hin; [done|].
  apply NoDup_app. split; [done|]. split; [|apply NoDup_singleton].
  intros x Hx Hx'. apply list_elem_of_singleton in Hx' as ->. done.
Qed.

Lemma remove_updater_NoDup id s : NoDup s → NoDup (remove_updater id s).
Proof. apply NoDup_filter. Qed.

Lemma remove_updater_gone id s : id ∉ remove_updater id s.
Proof.
  unfold remove_updater. rewrite list_elem_of_filter. intros [Hne _]. by apply Hne.
Qed.

Lemma add_updater_present id s : id ∈ add_updater id s.
Proof.
  unfold add_updater. case_bool_decide; [done|].
  apply elem_of_app. right. apply list_elem_of_here.
Qed.

(** With the codec for arrays of strings and a store that never fails, the
    favorites survive a reload, whatever the ids are. *)
Lemma favorites_survive_reload ids id :
  let sl := Scenarios.slot_of ids Scenarios.empty_browser in
  let sl' := exec (addFavorite JsonStrings.stringify ids id) sl in
  provider JsonStrings.parse (world sl') = sl' ∧
  id ∈ favorites (provider JsonStrings.parse (world sl')).
Proof.
  intros sl sl'.
  assert (provider JsonStrings.parse (world sl') = sl') as Hfresh.
  { apply (slot_round_trip JsonStrings.stringify JsonStrings.parse KEY []
             ids (inr (add_updater id)) sl
             (JsonStrings.text (add_updater id ids))); try done.
    apply JsonStringsFacts.parse_text. }
  split; [exact Hfresh|]. rewrite Hfresh.
  destruct (setValue_total JsonStrings.stringify KEY ids
              (inr (add_updater id)) sl) as [_ Hv].
  assert (favorites sl' = add_updater id ids) as -> by exact Hv.
  apply add_updater_present.
Qed.

End FavoritesFacts.

Module FavoritesClaims.
Import Js Exn UseLocalStorage Favorites SlotFacts FavoritesFacts Scenarios.

(** C6: the access point differs from the model when two calls come from
    one render. [setValue] applies the updater to the [storedValue] its
    render read, not to what the state cell holds at the call, so of two
    [addFavorite] calls made from the same render the second discards the
    first: for distinct ids [a] and [b] absent from the rendered sequence,
    the model lists both at the end, while the access point ends with [b]
    only, in memory and, when the store accepts the write, in the store;
    [a] is no favorite. *)
Theorem same_render_add_is_lost
    (JSON_stringify : list string → Error + string)
    (sl : Slot (list string)) (a b text : string) :
  let rendered := favorites sl in
  let sl1 := exec (addFavorite JSON_stringify rendered a) sl in
  let sl2 := exec (addFavorite JSON_stringify rendered b) sl1 in
  a ≠ b → a ∉ rendered → b ∉ rendered →
  JSON_stringify (rendered ++ [b]) = inr text →
  Storage.setItem_error (localStorage (world sl)) KEY text = None →
  FavoritesModel.list (FavoritesModel.add b (FavoritesModel.add a rendered))
    = rendered ++ [a; b] ∧
  favorites sl2 = rendered ++ [b] ∧
  isFavorite (favorites sl2) a = false ∧
  Storage.items (localStorage (world sl2)) !! KEY = Some text.
Proof.
  intros rendered sl1 sl2 Hab Ha Hb Hs Hw.
  assert (add_updater b rendered = rendered ++ [b]) as Eb.
  { unfold add_updater. by rewrite bool_decide_eq_false_2. }
  assert (favorites sl2 = rendered ++ [b]) as E2.
  { destruct (setValue_total JSON_stringify KEY rendered
                (inr (add_updater b)) sl1) as [_ Hv].
    rewrite <- Eb. exact Hv. }
  split; [|split; [exact E2|split]].
  - unfold FavoritesModel.list. rewrite <- !add_updater_model.
    unfold add_updater at 2. rewrite bool_decide_eq_false_2 by done.
    unfold add_updater. rewrite bool_decide_eq_false_2.
    + by rewrite <- app_assoc.
    + rewrite elem_of_app, list_elem_of_singleton. intros [?|?]; congruence.
  - unfold isFavorite. rewrite E2. apply bool_decide_eq_false_2.
    rewrite elem_of_app, list_elem_of_singleton. intros [?|?]; congruence.
  - destruct (setValue_store_errors JSON_stringify KEY rendered
                (inr (add_updater a)) sl) as [_ Hw1].
    apply (setValue_persists JSON_stringify KEY rendered
             (inr (add_updater b)) sl1 text).
    + simpl. by rewrite Eb.
    + fold (setFavorites JSON_stringify rendered (inr (add_updater a))) in Hw1.
      fold (addFavorite JSON_stringify rendered a) in Hw1. fold sl1 in Hw1.
      by rewrite Hw1.
Qed.

Lemma same_render_add_is_lost_witness :
  let sl := slot_of [] empty_browser in
  let rendered := favorites sl in
  let sl1 := exec (addFavorite JsonStrings.stringify rendered "42") sl in
  let sl2 := exec (addFavorite JsonStrings.stringify rendered "7") sl1 in
  FavoritesModel.list (FavoritesModel.add "7" (FavoritesModel.add "42" []))
    = ["42"; "7"] ∧
  favorites sl2 = ["7"] ∧
  isFavorite (favorites sl2) "42" = false ∧
  Storage.items (localStorage (world sl2)) !! KEY
    = Some (JsonStrings.text ["7"]).
Proof.
  apply (same_render_add_is_lost JsonStrings.stringify
           (slot_of [] empty_browser) "42" "7" (JsonStrings.text ["7"])).
  - discriminate.
  - apply not_elem_of_nil.
  - apply not_elem_of_nil.
  - reflexivity.
  - reflexivity.
Defined.

(** C7: when the store fails neither on the write nor on the read and the
    codec reads back what it wrote, a slot initialised from the browser as
    [setValue] left it equals the slot that wrote: it holds the same sequence
    and logs nothing; after [addFavorite id] that sequence contains [id].
    Initialisation falls back to the empty sequence when the key is absent
    and when the stored text does not parse. *)
Theorem persistence_round_trip
    (JSON_stringify : list string → Error + string)
    (JSON_parse : string → Error + list string)
    (sl : Slot (list string)) rendered value (text : string) :
  let sl' := exec (setFavorites JSON_stringify rendered value) sl in
  let fresh := provider JSON_parse (world sl') in
  JSON_stringify (valueToStore value rendered) = inr text →
  JSON_parse text = inr (valueToStore value rendered) →
  truthy text = true →
  Storage.setItem_error (localStorage (world sl)) KEY text = None →
  Storage.getItem_error (localStorage (world sl)) = None →
  fresh = sl' ∧
  (∀ id, value = inr (add_updater id) → id ∈ favorites fresh) ∧
  (∀ w, Storage.getItem_error (localStorage w) = None →
        Storage.items (localStorage w) !! KEY = None →
        provider JSON_parse w = slot_of [] w) ∧
  (∀ w stored e,
        Storage.getItem_error (localStorage w) = None →
        Storage.items (localStorage w) !! KEY = Some stored →
        truthy stored = true → JSON_parse stored = inl e →
        favorites (provider JSON_parse w) = []).
Proof.
  intros sl' fresh Hs Hp Ht Hw Hr.
  assert (fresh = sl') as Hfresh.
  { by apply (slot_round_trip JSON_stringify JSON_parse KEY [] rendered value sl
                text). }
  split; [exact Hfresh|]. split; [|split].
  - intros id ->. rewrite Hfresh.
    destruct (setValue_total JSON_stringify KEY rendered
                (inr (add_updater id)) sl) as [_ Hv].
    assert (favorites sl' = add_updater id rendered) as -> by exact Hv.
    apply add_updater_present.
  - intros w Hrw Hkw. by apply useLocalStorage_absent.
  - intros w stored e Hrw Hkw Htw Hpw. unfold provider.
    by rewrite (useLocalStorage_unparseable _ _ _ _ stored e).
Qed.

Lemma persistence_round_trip_witness :
  let sl := slot_of ["42"] empty_browser in
  let sl' := exec (addFavorite JsonStrings.stringify (favorites sl) "7") sl in
  let fresh := provider JsonStrings.parse (world sl') in
  fresh = sl' ∧ "7" ∈ favorites fresh.
Proof.
  intros sl sl' fresh.
  destruct (persistence_round_trip JsonStrings.stringify JsonStrings.parse
              sl (favorites sl) (inr (add_updater "7"))
              (JsonStrings.text ["42"; "7"]))
    as (H1 & H2 & _); try (vm_compute; reflexivity).
  split; [exact H1|]. by apply H2.
Defined.

(** C8: when the store throws on the write, [setValue] still returns
    normally, the in-memory value is the new one (so after [addFavorite id]
    the id is a favorite), the store keeps what it had, and the error is
    logged on the console. *)
Theorem write_failure_keeps_memory
    (JSON_stringify : list string → Error + string)
    (sl : Slot (list string)) rendered value (text : string) (e : Error) :
  let sl' := exec (setFavorites JSON_stringify rendered value) sl in
  JSON_stringify (valueToStore value rendered) = inr text →
  Storage.setItem_error (localStorage (world sl)) KEY text = Some e →
  outcome (setFavorites JSON_stringify rendered value) sl = inr tt ∧
  favorites sl' = valueToStore value rendered ∧
  localStorage (world sl') = localStorage (world sl) ∧
  console (world sl') = console (world sl) ++ [(setting_message KEY, e)] ∧
  (∀ id, value = inr (add_updater id) →
         isFavorite (favorites sl') id = true).
Proof.
  intros sl' Hs Hw.
  destruct (setValue_total JSON_stringify KEY rendered value sl) as [Ho Hv].
  destruct (setValue_refused JSON_stringify KEY rendered value sl text e Hs Hw)
    as [Hst Hlog].
  split; [exact Ho|]. split; [exact Hv|]. split; [exact Hst|].
  split; [exact Hlog|].
  intros id ->. unfold isFavorite. apply bool_decide_eq_true_2.
  assert (favorites sl' = add_updater id rendered) as -> by exact Hv.
  apply add_updater_present.
Qed.

Lemma write_failure_keeps_memory_witness :
  let sl := slot_of ["42"] full_browser in
  let sl' := exec (addFavorite JsonStrings.stringify (favorites sl) "7") sl in
  outcome (addFavorite JsonStrings.stringify (favorites sl) "7") sl = inr tt ∧
  isFavorite (favorites sl') "7" = true ∧
  favorites sl' = ["42"; "7"] ∧
  Storage.items (localStorage (world sl')) !! KEY = None ∧
  length (console (world sl')) = 1.
Proof.
  intros sl sl'.
  destruct (write_failure_keeps_memory JsonStrings.stringify sl (favorites sl)
              (inr (add_updater "7")) (JsonStrings.text ["42"; "7"])
              {| is_Error := true; name := "QuotaExceededError";
                 message := "The quota has been exceeded." |})
    as (H1 & H2 & H3 & H4 & H5); try (vm_compute; reflexivity).
  split; [exact H1|]. split; [by apply H5|]. split; [exact H2|].
  fold (addFavorite JsonStrings.stringify (favorites sl) "7") in H3, H4.
  fold sl' in H3, H4.
  split; [by rewrite H3|]. by rewrite H4.
Defined.

End FavoritesClaims.

(** ** Hydration of the favorites *)

Module FavoritesPageFacts.
Import Js FavoritesPage Hydration.

Section Facts.
Context {Recipe : Type}.
Variable encodeURIComponent : string → string.
Variable null_index_message : string.
Local Abbreviation lookup_settles := (lookup_settles null_index_message).
Local Abbreviation lookup := (lookup null_index_message).
Local Abbreviation step := (step encodeURIComponent null_index_message).
Local Abbreviation run := (run encodeURIComponent null_index_message).
Local Abbreviation run_effect := (run_effect encodeURIComponent).
Local Abbreviation fulfils_other := (fulfils_other null_index_message).
Implicit Types (s : Page Recipe) (b : Batch Recipe) (ids : list string).

Lemma page_run_app evs1 evs2 s : run (evs1 ++ evs2) s = run evs2 (run evs1 s).
Proof. unfold FavoritesPage.run. apply foldl_app. Qed.

(** [Promise.all] does not fulfil while a lookup is pending. *)
Lemma all_fulfilled_pending (rs : list (option (Settled (option Recipe)))) i :
  rs !! i = Some None → all_fulfilled rs = None.
Proof.
  intros Hi. unfold all_fulfilled. apply mapM_None.
  apply Exists_exists. exists None. split; [|done].
  by apply list_elem_of_lookup_2 with i.
Qed.

(** A failed retrieval rejects the promise of its lookup. *)
Lemma retrieval_fails_rejects id (t : Transport Recipe) err :
  retrieval_fails id t err → lookup id t = Rejected err.
Proof. intros [e|resp body Hok|resp e Hok]; simpl; by rewrite ?Hok. Qed.

(** *** The effect run *)

Lemma run_effect_starts ids s :
  ids ≠ [] →
  let s0 := run_effect ids s in
  batches s0 = batches s ++ [new_batch ids] ∧
  requests s0 = requests s ++ (getRecipeByIdUrl encodeURIComponent <$> ids) ∧
  loading s0 = true ∧ error s0 = None ∧
  favoriteRecipes s0 = favoriteRecipes s ∧ favorites s0 = ids.
Proof.
  intros Hne. unfold FavoritesPage.run_effect.
  rewrite bool_decide_eq_false_2; [done|].
  by destruct ids.
Qed.

Lemma run_effect_open ids i id s :
  ids !! i = Some id →
  batch_open (length (batches s)) ids i (run_effect ids s).
Proof.
  intros Hi.
  assert (ids ≠ []) as Hne by (by destruct ids).
  destruct (run_effect_starts ids s Hne) as (Hb & _).
  exists (new_batch ids). rewrite Hb. split; [by rewrite list_lookup_middle|].
  split; [done|]. split; [done|]. simpl.
  apply lookup_replicate_2. by apply lookup_lt_Some with id.
Qed.

(** *** While the batch is open *)

Lemma open_fulfils_other k ids i s ev :
  fulfils_other ids k i ev = true →
  batch_open k ids i s →
  batch_open k ids i (step s ev) ∧ observe (step s ev) = observe s ∧
  favorites (step s ev) = favorites s.
Proof.
  intros Hev (b & Hk & Hids & Hopen & Hi).
  destruct ev as [ids'|k' j t]; simpl in *; [done|].
  apply andb_true_iff in Hev as [Hev Hful].
  apply andb_true_iff in Hev as [Hk' Hj].
  apply Nat.eqb_eq in Hk' as ->. apply negb_true_iff, Nat.eqb_neq in Hj.
  assert (batch_open k ids i s) as Hs by (exists b; done).
  unfold FavoritesPage.lookup_settles. rewrite Hk.
  destruct (b_ids b !! j) as [recipeId|] eqn:Hid; [|done].
  destruct (b_results b !! j) as [[o|]|] eqn:Hres; try done.
  rewrite Hopen. rewrite Hids in Hid. rewrite Hid in Hful.
  assert (k < length (batches s)) as Hlt by (by apply lookup_lt_Some with b).
  destruct (lookup recipeId t) as [v|e] eqn:Hl; [|done].
  rewrite (all_fulfilled_pending _ i); simpl.
  - split; [|done]. eexists. simpl.
    rewrite list_lookup_insert_eq by done. split; [done|]. simpl.
    by rewrite list_lookup_insert_ne.
  - by rewrite list_lookup_insert_ne.
Qed.

Lemma open_run_others k ids i s evs :
  Forall (λ ev, fulfils_other ids k i ev = true) evs →
  batch_open k ids i s →
  batch_open k ids i (run evs s) ∧ observe (run evs s) = observe s ∧
  favorites (run evs s) = favorites s.
Proof.
  intros Hevs. revert s.
  induction Hevs as [|ev evs Hev _ IH]; intros s Hs; [done|]. simpl.
  destruct (open_fulfils_other k ids i s ev Hev Hs) as (Hs' & Hobs & Hfav).
  destruct (IH _ Hs') as (? & ? & ?). split; [done|]. split; congruence.
Qed.

(** *** The first rejection *)

Lemma open_rejects k ids i id t err s :
  ids !! i = Some id → lookup id t = Rejected err →
  batch_open k ids i s →
  let s' := lookup_settles k i t s in
  error s' = Some (failure_message err) ∧ loading s' = false ∧
  favoriteRecipes s' = favoriteRecipes s ∧ favorites s' = favorites s ∧
  batch_settled k s'.
Proof.
  intros Hid Hl (b & Hk & Hids & Hopen & Hi).
  unfold FavoritesPage.lookup_settles. rewrite Hk, Hids, Hid, Hi, Hl, Hopen.
  simpl. split; [done|]. split; [done|]. split; [done|]. split; [done|].
  eexists. simpl. rewrite list_lookup_insert_eq; [done|].
  by apply lookup_lt_Some with b.
Qed.

(** *** After the batch has settled *)

Lemma settled_ignores k s ev :
  settles_in k ev = true → batch_settled k s →
  batch_settled k (step s ev) ∧ observe (step s ev) = observe s ∧
  favorites (step s ev) = favorites s.
Proof.
  intros Hev (b & Hk & Hset).
  destruct ev as [ids'|k' j t]; simpl in *; [done|].
  apply Nat.eqb_eq in Hev as ->.
  assert (batch_settled k s) as Hs by (exists b; done).
  unfold FavoritesPage.lookup_settles. rewrite Hk.
  destruct (b_ids b !! j) as [recipeId|] eqn:Hid; [|done].
  destruct (b_results b !! j) as [[o|]|] eqn:Hres; try done.
  rewrite Hset. simpl. split; [|done].
  eexists. simpl. rewrite list_lookup_insert_eq; [done|].
  by apply lookup_lt_Some with b.
Qed.

Lemma settled_run k s evs :
  Forall (λ ev, settles_in k ev = true) evs → batch_settled k s →
  observe (run evs s) = observe s ∧ favorites (run evs s) = favorites s.
Proof.
  intros Hevs. revert s.
  induction Hevs as [|ev evs Hev _ IH]; intros s Hs; [done|]. simpl.
  destruct (settled_ignores k s ev Hev Hs) as (Hs' & Hobs & Hfav).
  destruct (IH _ Hs') as (? & ?). split; congruence.
Qed.

(** The strict policy: from the effect run to the first rejection the page
    keeps loading and shows no recipe; the first rejection fails the batch;
    nothing that settles in the batch afterwards changes that. *)
Lemma first_rejection_fails_batch s ids pre i id t err post :
  let k := length (batches s) in
  let s0 := run_effect ids s in
  let s' := run (pre ++ [LookupSettles k i t] ++ post) s0 in
  ids !! i = Some id → lookup id t = Rejected err →
  Forall (λ ev, fulfils_other ids k i ev = true) pre →
  Forall (λ ev, settles_in k ev = true) post →
  observe (run pre s0) = (favoriteRecipes s, true, None) ∧
  observe s' = (favoriteRecipes s, false, Some (failure_message err)) ∧
  favorites s' = ids.
Proof.
  intros k s0 s' Hid Hl Hpre Hpost.
  assert (ids ≠ []) as Hne by (by destruct ids).
  destruct (run_effect_starts ids s Hne) as (_ & _ & Hl0 & He0 & Hr0 & Hf0).
  pose proof (run_effect_open ids i id s Hid) as Hopen.
  destruct (open_run_others _ _ _ _ pre Hpre Hopen) as (Hopen1 & Hobs1 & Hfav1).
  destruct (open_rejects _ _ _ _ _ _ _ Hid Hl Hopen1)
    as (He2 & Hl2 & Hr2 & Hf2 & Hset).
  destruct (settled_run _ _ post Hpost Hset) as (Hobs3 & Hfav3).
  fold s0 in Hl0, He0, Hr0, Hf0, Hobs1, Hfav1, He2, Hl2, Hr2, Hf2, Hobs3, Hfav3.
  split.
  - rewrite Hobs1. unfold observe. by rewrite Hl0, He0, Hr0.
  - subst s'. rewrite !page_run_app. simpl. split.
    + rewrite Hobs3. unfold observe. rewrite He2, Hl2, Hr2.
      injection Hobs1 as -> _ _. by rewrite Hr0.
    + by rewrite Hfav3, Hf2, Hfav1.
Qed.

End Facts.
End FavoritesPageFacts.

Module FavoritesPageClaims.
Import Js FavoritesPage Hydration FavoritesPageFacts PageInputs.



(** C10: a lookup answered with a success status and the body
    [{ meals: null }] rejects with the [TypeError] of [null[0]]. Under the
    strict policy this fails the whole batch, whatever the other lookups
    fulfilled with: [error] is the message of that [TypeError], [loading] is
    false, no recipe of the batch is stored, and the page shows the error
    view and no recipe card. *)
Theorem null_meals_fails_batch
    (Recipe : Type)
    (encodeURIComponent : string → string) (null_index_message : string)
    (s : Page Recipe) ids pre i id resp post :
  let k := length (batches s) in
  let t := Responded resp (Fulfilled {| meals := None |}) in
  let s0 := run_effect encodeURIComponent ids s in
  let s' := run encodeURIComponent null_index_message
              (pre ++ [LookupSettles k i t] ++ post) s0 in
  ids !! i = Some id → ok resp = true →
  Forall (λ ev, fulfils_other null_index_message ids k i ev = true) pre →
  Forall (λ ev, settles_in k ev = true) post →
  lookup null_index_message id t = Rejected (TypeError null_index_message) ∧
  error s' = Some null_index_message ∧ loading s' = false ∧
  favoriteRecipes s' = favoriteRecipes s ∧
  (truthy null_index_message = true →
     view s' = ErrorMessage null_index_message ∧ rendered (view s') = []).
Proof.
  intros k t s0 s' Hid Hok Hpre Hpost.
  assert (lookup null_index_message id t = Rejected (TypeError null_index_message))
    as Hl by (simpl; by rewrite Hok).
  destruct (first_rejection_fails_batch encodeURIComponent null_index_message
              s ids pre i id t _ post Hid Hl Hpre Hpost)
    as (_ & Hobs2 & _).
  fold k s0 s' in Hobs2. injection Hobs2 as Hr2 Hl2 He2.
  change (failure_message (TypeError null_index_message))
    with null_index_message in He2.
  split; [exact Hl|]. split; [done|]. split; [done|]. split; [done|].
  intros Ht.
  assert (view s' = ErrorMessage null_index_message) as ->; [|done].
  unfold view. by rewrite Hl2, He2, Ht.
Qed.

Lemma null_meals_fails_batch_witness :
  let s' := run encode_digits v8_null_index
              ([LookupSettles 0 0 (found recipe_1)] ++
               [LookupSettles 0 1 unknown_id] ++ [])
              (run_effect encode_digits ["1"; "2"] init) in
  error s' = Some v8_null_index ∧ loading s' = false ∧
  favoriteRecipes s' = [] ∧ rendered (view s') = [].
Proof.
  intros s'.
  destruct (null_meals_fails_batch Meal encode_digits v8_null_index init ["1"; "2"]
              [LookupSettles 0 0 (found recipe_1)] 1 "2" {| status := 200 |} [])
    as (_ & He & Hl & Hr & Hv);
    [reflexivity | reflexivity | repeat constructor | constructor |].
  split; [exact He|]. split; [exact Hl|]. split; [exact Hr|].
  by apply Hv.
Defined.

(** C5 as stated fails: after ["2"] was removed and the new batch has
    settled, the last lookup of the first batch puts both recipes back. *)
Lemma superseded_batch_overwrites :
  ¬ superseded_batch_is_silent (Recipe:=Meal) encode_digits v8_null_index.
Proof.
  intros H.
  specialize (H removed_then_late 0 1 (found recipe_2)).
  cbv zeta in H.
  assert (favoriteRecipes
            (lookup_settles v8_null_index 0 1 (found recipe_2)
               (run encode_digits v8_null_index removed_then_late init))
          = favoriteRecipes
              (run encode_digits v8_null_index removed_then_late init)) as Hr.
  { unfold observe in H. injection H; [done|]. vm_compute. lia. }
  revert Hr. vm_compute. discriminate.
Qed.

(** C5, amended: on a change to a non-empty favorite id set the effect
    starts a new batch with one lookup per id, sets [loading] and clears
    [error]; on a change to the empty set it clears the recipes and starts
    no batch. It cancels nothing: a batch started earlier is still in flight
    after the newer run has started, and a lookup settling in it acts as in
    the newest batch: a rejection writes [error] and stops [loading], the
    last fulfilment writes [favoriteRecipes] and stops [loading]. *)
Theorem every_batch_applies_its_outcome
    (Recipe : Type)
    (encodeURIComponent : string → string) (null_index_message : string)
    (s : Page Recipe) ids k b i id t :
  let s0 := run_effect encodeURIComponent ids s in
  let s1 := lookup_settles null_index_message k i t s0 in
  ids ≠ [] →
  batches s !! k = Some b → b_settled b = false →
  b_ids b !! i = Some id → b_results b !! i = Some None →
  batches s0 = batches s ++ [new_batch ids] ∧
  requests s0 = requests s ++ (getRecipeByIdUrl encodeURIComponent <$> ids) ∧
  loading s0 = true ∧ error s0 = None ∧
  S k < length (batches s0) ∧
  observe (run_effect encodeURIComponent [] s) = ([], loading s, error s) ∧
  batches (run_effect encodeURIComponent [] s) = batches s ∧
  match lookup null_index_message id t with
  | Rejected err =>
      error s1 = Some (failure_message err) ∧ loading s1 = false
  | Fulfilled v =>
      ∀ recipes,
        all_fulfilled (<[i := Some (Fulfilled v)]> (b_results b)) = Some recipes →
        favoriteRecipes s1 = filter_Boolean recipes ∧ loading s1 = false
  end.
Proof.
  intros s0 s1 Hne Hk Hopen Hid Hi.
  destruct (run_effect_starts encodeURIComponent ids s Hne)
    as (Hb & Hreq & Hl & He & _).
  fold s0 in Hb, Hreq, Hl, He.
  assert (k < length (batches s)) as Hlt by (by apply lookup_lt_Some with b).
  split; [exact Hb|]. split; [exact Hreq|]. split; [exact Hl|].
  split; [exact He|]. split; [rewrite Hb, length_app; simpl; lia|].
  split; [done|]. split; [done|].
  assert (batches s0 !! k = Some b) as Hk0.
  { rewrite Hb. by apply lookup_app_l_Some. }
  subst s1. unfold lookup_settles. rewrite Hk0, Hid, Hi, Hopen.
  destruct (lookup null_index_message id t) as [v|err]; simpl; [|done].
  intros recipes ->. done.
Qed.

Lemma every_batch_applies_its_outcome_witness :
  let s := run encode_digits v8_null_index
             [Effect ["1"; "2"]; LookupSettles 0 0 (found recipe_1)] init in
  let s0 := run_effect encode_digits ["1"] s in
  let s1 := lookup_settles v8_null_index 0 1 (found recipe_2) s0 in
  S 0 < length (batches s0) ∧
  favoriteRecipes s1 = [recipe_1; recipe_2] ∧ loading s1 = false.
Proof.
  intros s s0 s1.
  destruct (every_batch_applies_its_outcome Meal encode_digits v8_null_index s
              ["1"] 0
              {| b_ids := ["1"; "2"];
                 b_results := [Some (Fulfilled (Some recipe_1)); None];
                 b_settled := false |}
              1 "2" (found recipe_2))
    as (_ & _ & _ & _ & Hlt & _ & _ & Hout);
    [discriminate | reflexivity | reflexivity | reflexivity | reflexivity |].
  split; [exact Hlt|].
  apply (Hout [Some recipe_1; Some recipe_2]). reflexivity.
Defined.

End FavoritesPageClaims.

(** ** The tracker: failures, teardown and invariants *)

Module UseFetchMore.
Import Js UseFetch UseFetchFacts UseFetchStates Scenarios.

Section Facts.
Context {T : Type}.
Implicit Types (s : Hook T) (ev : Event T) (evs : list (Event T)).

Ltac unfold_cells :=
  unfold catch_finally, set_phase, setLoading, setData, setError,
    console_error, with_retrievals, with_effect, with_unmounted in *;
  simpl in *.

Ltac split_cells :=
  unfold_cells;
  repeat (case_match; simpl in *; try congruence);
  try done.

(** *** Stale settlements keep the payload *)

Lemma awaiting_other_keeps_data i p s ev :
  settles_other i ev = true → awaiting i p s → data (step s ev) = data s.
Proof.
  intros Hev (_ & _ & _ & Hall).
  destruct ev as [u| |j o|j o]; simpl in *; try done.
  - apply negb_true_iff, Nat.eqb_neq in Hev.
    destruct (retrievals s !! j) as [r|] eqn:Hr.
    + apply (superseded_keeps_data_error j s (FetchSettles j o)).
      * exists r. split; [done|]. by apply (Hall j r).
      * left. by exists o.
    + unfold fetch_settles. by rewrite Hr.
  - apply negb_true_iff, Nat.eqb_neq in Hev.
    destruct (retrievals s !! j) as [r|] eqn:Hr.
    + apply (superseded_keeps_data_error j s (JsonSettles j o)).
      * exists r. split; [done|]. by apply (Hall j r).
      * right. by exists o.
    + unfold json_settles. by rewrite Hr.
Qed.

Lemma awaiting_run_keeps_data i p s evs :
  Forall (λ ev, settles_other i ev = true) evs →
  awaiting i p s → data (run evs s) = data s.
Proof.
  intros Hevs. revert s. induction Hevs as [|ev evs Hev _ IH]; intros s Hs; [done|].
  simpl. rewrite IH by (by apply awaiting_settles_other).
  by apply (awaiting_other_keeps_data i p).
Qed.

(** *** The tracker at rest *)

Lemma at_rest_stale_phase j s :
  at_rest s → at_rest (setLoading false (set_phase j Finished s)) ∧
  observe (setLoading false (set_phase j Finished s)) = observe s.
Proof.
  intros [Hl Hq]. unfold at_rest, quiescent, observe. unfold_cells.
  destruct (unmounted s); simpl; rewrite ?Hl; (split; [split; [done|]|done]).
  all: intros k r; rewrite list_lookup_alter; case_decide; [subst|by apply Hq].
  all: destruct (retrievals s !! k) as [r0|] eqn:E; [|done]; simpl.
  all: intros [= <-]; by right.
Qed.

Lemma at_rest_settlement s ev :
  is_settlement ev = true → at_rest s →
  at_rest (step s ev) ∧ observe (step s ev) = observe s.
Proof.
  intros Hev Hs. pose proof Hs as [Hl Hq].
  destruct ev as [u| |j o|j o]; simpl in *; try done.
  - unfold fetch_settles. destruct (retrievals s !! j) as [r|] eqn:Hr; [|done].
    case_bool_decide as Hp; [|done].
    destruct (Hq j r Hr) as [Ha | Hf]; [|congruence].
    unfold observed. rewrite Ha. by apply at_rest_stale_phase.
  - unfold json_settles. destruct (retrievals s !! j) as [r|] eqn:Hr; [|done].
    case_bool_decide as Hp; [|done].
    destruct (Hq j r Hr) as [Ha | Hf]; [|congruence].
    unfold observed. rewrite Ha. by apply at_rest_stale_phase.
Qed.

Lemma at_rest_run s evs :
  Forall (λ ev, is_settlement ev = true) evs → at_rest s →
  observe (run evs s) = observe s.
Proof.
  intros Hevs. revert s. induction Hevs as [|ev evs Hev _ IH]; intros s Hs; [done|].
  simpl. destruct (at_rest_settlement s ev Hev Hs) as [Hs' Hobs].
  by rewrite IH.
Qed.

(** *** The live retrieval fails *)

Lemma awaiting_caught i p s err :
  awaiting i p s →
  let s' := catch_finally err (set_phase i Finished s) in
  at_rest s' ∧ data s' = data s ∧
  error s' = (if reported err
              then Some (or_else (message err) "Failed to fetch data")
              else None).
Proof.
  intros (Hm & He & [a Hi] & Hall). unfold at_rest, quiescent, reported.
  unfold_cells. rewrite Hm. simpl.
  assert (∀ (j : nat) (r : Retrieval),
            alter (at_phase Finished) i (retrievals s) !! j = Some r →
            r_aborted r = true ∨ r_phase r = Finished) as Hq.
  { intros k r. rewrite list_lookup_alter. case_decide.
    - subst. rewrite Hi. simpl. intros [= <-]. by right.
    - intros Hk. left. by apply (Hall k r). }
  destruct (is_Error err && negb (name err =? "AbortError")%string);
    simpl; rewrite ?Hm; simpl; done.
Qed.

Lemma awaiting_fetch_rejected i s err :
  awaiting i AwaitFetch s →
  fetch_settles i (Rejected err) s = catch_finally err (set_phase i Finished s).
Proof.
  intros (_ & _ & [a Hi] & _). unfold fetch_settles, observed. by rewrite Hi.
Qed.

Lemma awaiting_fetch_not_ok i s resp :
  ok resp = false → awaiting i AwaitFetch s →
  fetch_settles i (Fulfilled resp) s =
  catch_finally (new_Error ("HTTP error! status: " +:+ pretty (status resp)))
    (set_phase i Finished s).
Proof.
  intros Hok (_ & _ & [a Hi] & _). unfold fetch_settles, observed.
  rewrite Hi. simpl. by rewrite Hok.
Qed.

Lemma awaiting_json_rejected i s err :
  awaiting i AwaitJson s →
  json_settles i (Rejected err) s = catch_finally err (set_phase i Finished s).
Proof.
  intros (_ & _ & [a Hi] & _). unfold json_settles, observed. by rewrite Hi.
Qed.

(** The retrieval of a new locator fails before the body is read. *)
Lemma current_fetch_failure evs a noise1 ev err noise2 :
  let s := run evs init in
  let i := length (retrievals s) in
  truthy a = true → unmounted s = false → deps s ≠ Some (Some a) →
  (∀ s1, awaiting i AwaitFetch s1 →
         step s1 ev = catch_finally err (set_phase i Finished s1)) →
  Forall (λ ev, settles_other i ev = true) noise1 →
  Forall (λ ev, is_settlement ev = true) noise2 →
  observe (run ([Render (Some a)] ++ noise1 ++ [ev] ++ noise2) s) =
  (data s, false,
   if reported err then Some (or_else (message err) "Failed to fetch data")
   else None).
Proof.
  intros s i Ha Hm Hd Hev Hn1 Hn2.
  pose proof (render_awaiting s a (reachable_current_only evs) Ha Hm Hd) as Hw.
  fold i in Hw.
  assert (data (render (Some a) s) = data s) as Hd0.
  { rewrite render_new_locator by done.
    destruct (run_cleanup_cells s) as [Hobs Hm1]. rewrite Hm in Hm1.
    injection Hobs as Hdata _ _.
    destruct (start_fetch_cells a (run_cleanup s) Hm1) as (_ & _ & Hdt & _).
    by rewrite Hdt. }
  pose proof (awaiting_run_others i _ _ noise1 Hn1 Hw) as Hw1.
  pose proof (awaiting_run_keeps_data i _ _ noise1 Hn1 Hw) as Hd1.
  destruct (awaiting_caught i _ _ err Hw1) as (Hrest & Hd2 & He2).
  rewrite !run_app. simpl. rewrite (Hev _ Hw1).
  rewrite (at_rest_run _ noise2 Hn2 Hrest).
  unfold observe. rewrite Hd2, He2, Hd1, Hd0. by destruct Hrest as [-> _].
Qed.

(** The retrieval of a new locator fails while the body is read. *)
Lemma current_json_failure evs a resp noise1 noise2 err noise3 :
  let s := run evs init in
  let i := length (retrievals s) in
  truthy a = true → unmounted s = false → deps s ≠ Some (Some a) →
  ok resp = true →
  Forall (λ ev, settles_other i ev = true) (noise1 ++ noise2) →
  Forall (λ ev, is_settlement ev = true) noise3 →
  observe (run ([Render (Some a)] ++ noise1 ++
                [FetchSettles i (Fulfilled resp)] ++ noise2 ++
                [JsonSettles i (Rejected err)] ++ noise3) s) =
  (data s, false,
   if reported err then Some (or_else (message err) "Failed to fetch data")
   else None).
Proof.
  intros s i Ha Hm Hd Hok Hn Hn3.
  apply Forall_app in Hn as [Hn1 Hn2].
  pose proof (render_awaiting s a (reachable_current_only evs) Ha Hm Hd) as Hw.
  fold i in Hw.
  assert (data (render (Some a) s) = data s) as Hd0.
  { rewrite render_new_locator by done.
    destruct (run_cleanup_cells s) as [Hobs Hm1]. rewrite Hm in Hm1.
    injection Hobs as Hdata _ _.
    destruct (start_fetch_cells a (run_cleanup s) Hm1) as (_ & _ & Hdt & _).
    by rewrite Hdt. }
  pose proof (awaiting_run_others i _ _ noise1 Hn1 Hw) as Hw1.
  pose proof (awaiting_run_keeps_data i _ _ noise1 Hn1 Hw) as Hd1.
  pose proof (awaiting_fetch_ok i _ resp Hok Hw1) as Hw2.
  assert (data (fetch_settles i (Fulfilled resp) (run noise1 (render (Some a) s)))
          = data (run noise1 (render (Some a) s))) as Hd2.
  { destruct Hw1 as (_ & _ & [u Hi] & _).
    unfold fetch_settles, observed. rewrite Hi. simpl. by rewrite Hok. }
  pose proof (awaiting_run_others i _ _ noise2 Hn2 Hw2) as Hw3.
  pose proof (awaiting_run_keeps_data i _ _ noise2 Hn2 Hw2) as Hd3.
  destruct (awaiting_caught i _ _ err Hw3) as (Hrest & Hd4 & He4).
  rewrite !run_app. simpl. rewrite (awaiting_json_rejected i _ err Hw3).
  rewrite (at_rest_run _ noise3 Hn3 Hrest).
  unfold observe. rewrite Hd4, He4, Hd3, Hd2, Hd1, Hd0.
  by destruct Hrest as [-> _].
Qed.

(** *** Invariants of every reachable state *)

Lemma step_well_formed s ev : well_formed s → well_formed (step s ev).
Proof.
  intros Hwf. pose proof Hwf as [Hu Hurls].
  assert (∀ f i, (∀ r, r_url (f r) = r_url r) →
            Forall (λ r, truthy (r_url r) = true) (alter f i (retrievals s)))
    as Halter.
  { intros f i Hf. apply Forall_alter; [done|]. intros r _ Hr. by rewrite Hf. }
  destruct ev as [u| |i o|i o]; simpl.
  - unfold render. destruct (unmounted s) eqn:Hm; [done|].
    case_bool_decide; [done|].
    assert (Forall (λ r, truthy (r_url r) = true) (retrievals (run_cleanup s)))
      as Hc.
    { unfold run_cleanup. case_match; [|done]. simpl. by apply Halter. }
    destruct (run_cleanup_cells s) as [_ Hm1]. rewrite Hm in Hm1.
    unfold run_effect.
    assert (well_formed (with_effect u None (run_cleanup s))) as Hidle.
    { split; [|done]. simpl. congruence. }
    destruct u as [a|]; [|done]. destruct (is_sentinel (Some a)) eqn:Hs; [done|].
    unfold start_fetch. unfold_cells. rewrite Hm1. simpl.
    split; [done|]. simpl. apply Forall_app. split; [done|].
    apply Forall_singleton. simpl. by apply negb_false_iff in Hs.
  - unfold unmount. destruct (unmounted s) eqn:Hm; [done|].
    split; [done|]. simpl. unfold run_cleanup. case_match; [|done]. simpl.
    by apply Halter.
  - destruct (fetch_settles_controllers i o s) as (Hc & Hm & _).
    split; [by rewrite Hc, Hm|].
    unfold fetch_settles. repeat case_match; try done.
    all: unfold_cells; repeat case_match; simpl; by apply Halter.
  - destruct (json_settles_controllers i o s) as (Hc & Hm & _).
    split; [by rewrite Hc, Hm|].
    unfold json_settles. repeat case_match; try done.
    all: unfold_cells; repeat case_match; simpl; by apply Halter.
Qed.

Lemma reachable_well_formed evs : well_formed (run evs (init (T:=T))).
Proof.
  apply run_invariant; [apply step_well_formed|]. split; [done|]. constructor.
Qed.

(** [data] is written by one statement only: [setData(result)] with the
    parsed body. *)
Lemma step_data s ev :
  data (step s ev) = data s ∨
  ∃ i result, ev = JsonSettles i (Fulfilled result) ∧ data (step s ev) = result.
Proof.
  destruct ev as [u| |i o|i o]; simpl.
  - left. unfold render. case_match; [done|]. case_bool_decide; [done|].
    destruct (run_cleanup_cells s) as [Hobs _]. injection Hobs as Hdata _ _.
    unfold run_effect.
    assert (data (with_effect u None (run_cleanup s)) = data s) as Hidle
      by done.
    destruct u as [a|]; [|done]. case_match; [done|].
    unfold start_fetch. unfold_cells. repeat case_match; simpl; by rewrite Hdata.
  - left. unfold unmount. case_match; [done|]. simpl.
    destruct (run_cleanup_cells s) as [Hobs _]. by injection Hobs as Hdata _ _.
  - left. unfold fetch_settles. repeat case_match; try done.
    all: unfold_cells; repeat case_match; simpl; done.
  - unfold json_settles. destruct (retrievals s !! i) as [r|]; [|by left].
    case_bool_decide; [|by left]. unfold observed.
    destruct (r_aborted r).
    { left. unfold_cells. repeat case_match; simpl; done. }
    destruct o as [result|err].
    + destruct (unmounted s) eqn:Hm.
      * left. unfold_cells. simpl. by rewrite Hm.
      * right. exists i, result. split; [done|].
        unfold_cells. simpl. by rewrite Hm.
    + left. unfold_cells. repeat case_match; simpl; done.
Qed.

Lemma run_data s evs :
  data (run evs s) = data s ∨
  ∃ i result, JsonSettles i (Fulfilled result) ∈ evs ∧ data (run evs s) = result.
Proof.
  revert s. induction evs as [|ev evs IH]; intros s; [by left|]. simpl.
  destruct (IH (step s ev)) as [Hsame | (i & result & Hin & Hd)].
  - destruct (step_data s ev) as [Hstep | (i & result & -> & Hd)].
    + left. congruence.
    + right. exists i, result. split; [apply list_elem_of_here|congruence].
  - right. exists i, result. split; [by apply list_elem_of_further|done].
Qed.

(** A body that parses to [null] on the current retrieval clears [data]. *)
Lemma awaiting_json_null i s :
  awaiting i AwaitJson s →
  observe (json_settles i (Fulfilled None) s) = (None, false, None).
Proof.
  intros (Hm & He & [a Hi] & _). unfold json_settles, observed. rewrite Hi.
  simpl. unfold_cells. simpl. by rewrite Hm, He.
Qed.

(** After the teardown nothing changes what the tracker held. *)
Lemma teardown_run_silent s evs :
  unmounted s = true → observe (run evs s) = observe s.
Proof.
  revert s. induction evs as [|ev evs IH]; intros s Hm; [done|]. simpl.
  rewrite IH; [by apply teardown_is_silent|].
  destruct ev as [u| |i o|i o]; simpl.
  - unfold render. by rewrite Hm.
  - unfold unmount. by rewrite Hm.
  - by destruct (fetch_settles_controllers i o s) as (_ & -> & _).
  - by destruct (json_settles_controllers i o s) as (_ & -> & _).
Qed.

End Facts.
End UseFetchMore.

Module TrackerExtras.
Import Js UseFetch UseFetchFacts UseFetchStates UseFetchMore Scenarios.

(** X1: a new non-sentinel locator whose response has a status outside
    200-299 resolves the tracker to failed with the message
    ["HTTP error! status: N"], which is never empty; [loading] is false and
    [data] is what it was. The body is never read: nothing that settles
    afterwards changes the outcome. *)
Theorem http_error_resolves_failed (T : Type) (evs : list (Event T))
    a resp noise1 noise2 :
  let s := run evs init in
  let i := length (retrievals s) in
  let msg := "HTTP error! status: " +:+ pretty (status resp) in
  let s' := run ([Render (Some a)] ++ noise1 ++
                 [FetchSettles i (Fulfilled resp)] ++ noise2) s in
  truthy a = true → unmounted s = false → deps s ≠ Some (Some a) →
  ok resp = false →
  Forall (λ ev, settles_other i ev = true) noise1 →
  Forall (λ ev, is_settlement ev = true) noise2 →
  observe s' = (data s, false, Some msg) ∧ truthy msg = true.
Proof.
  intros s i msg s' Ha Hm Hd Hok Hn1 Hn2. split; [|done].
  subst s' msg i s.
  rewrite (current_fetch_failure evs a noise1
             (FetchSettles _ (Fulfilled resp))
             (new_Error ("HTTP error! status: " +:+ pretty (status resp)))
             noise2 Ha Hm Hd); [done| |done|done].
  intros s1 Hs1. by apply awaiting_fetch_not_ok.
Qed.

Lemma http_error_resolves_failed_witness :
  let s := run answered init in
  let i := length (retrievals s) in
  let msg := "HTTP error! status: " +:+ pretty (status {| status := 404 |}) in
  let s' := run ([Render (Some "b")] ++ [] ++
                 [FetchSettles i (Fulfilled {| status := 404 |})] ++
                 [JsonSettles i (Fulfilled (Some 9))]) s in
  observe s' = (data s, false, Some msg) ∧ truthy msg = true.
Proof.
  apply (http_error_resolves_failed nat answered "b" {| status := 404 |} []
           [JsonSettles 1 (Fulfilled (Some 9))]).
  - reflexivity.
  - vm_compute. reflexivity.
  - vm_compute. discriminate.
  - reflexivity.
  - constructor.
  - repeat constructor.
Defined.

(** X2: when the fetch of a new non-sentinel locator rejects, or its body
    fails to parse, with an [Error] that is not an abort, the tracker
    resolves to failed with the error's message, or with
    ["Failed to fetch data"] when that message is empty; [loading] is false
    and [data] is what it was, whatever earlier retrievals do in between. *)
Theorem rejection_resolves_failed (T : Type) (evs : list (Event T))
    a resp err noise1 noise2 noise3 :
  let s := run evs init in
  let i := length (retrievals s) in
  let msg := or_else (message err) "Failed to fetch data" in
  let network := run ([Render (Some a)] ++ noise1 ++
                      [FetchSettles i (Rejected err)] ++ noise3) s in
  let parse := run ([Render (Some a)] ++ noise1 ++
                    [FetchSettles i (Fulfilled resp)] ++ noise2 ++
                    [JsonSettles i (Rejected err)] ++ noise3) s in
  truthy a = true → unmounted s = false → deps s ≠ Some (Some a) →
  ok resp = true → reported err = true →
  Forall (λ ev, settles_other i ev = true) (noise1 ++ noise2) →
  Forall (λ ev, is_settlement ev = true) noise3 →
  observe network = (data s, false, Some msg) ∧
  observe parse = (data s, false, Some msg) ∧
  truthy msg = true.
Proof.
  intros s i msg network parse Ha Hm Hd Hok Hrep Hn Hn3.
  pose proof Hn as Hn'. apply Forall_app in Hn' as [Hn1 _].
  split; [|split].
  - subst network i s.
    rewrite (current_fetch_failure evs a noise1
               (FetchSettles _ (Rejected err)) err noise3 Ha Hm Hd);
      [by rewrite Hrep| |done|done].
    intros s1 Hs1. by apply awaiting_fetch_rejected.
  - subst parse i s.
    rewrite (current_json_failure evs a resp noise1 noise2 err noise3
               Ha Hm Hd Hok Hn Hn3). by rewrite Hrep.
  - by apply truthy_or_else.
Qed.

Lemma rejection_resolves_failed_witness :
  let err := {| is_Error := true; name := "TypeError"; message := "" |} in
  let s := run answered init in
  let i := length (retrievals s) in
  let msg := or_else (message err) "Failed to fetch data" in
  let network := run ([Render (Some "b")] ++ [] ++
                      [FetchSettles i (Rejected err)] ++ []) s in
  let parse := run ([Render (Some "b")] ++ [] ++
                    [FetchSettles i (Fulfilled ok_200)] ++ [] ++
                    [JsonSettles i (Rejected err)] ++ []) s in
  observe network = (data s, false, Some msg) ∧
  observe parse = (data s, false, Some msg) ∧
  truthy msg = true.
Proof.
  apply (rejection_resolves_failed nat answered "b" ok_200
           {| is_Error := true; name := "TypeError"; message := "" |}
           [] [] []).
  - reflexivity.
  - vm_compute. reflexivity.
  - vm_compute. discriminate.
  - reflexivity.
  - reflexivity.
  - constructor.
  - constructor.
Defined.

(** X3: a rejection the [catch] block does not report (a thrown value that
    is no [Error], or an error named ["AbortError"]) on the current
    retrieval is swallowed: the tracker ends not loading with a null error
    and its earlier [data], so the failure cannot be told from an answer. *)
Theorem unreported_rejection_is_swallowed (T : Type) (evs : list (Event T))
    a resp err noise1 noise2 noise3 :
  let s := run evs init in
  let i := length (retrievals s) in
  let network := run ([Render (Some a)] ++ noise1 ++
                      [FetchSettles i (Rejected err)] ++ noise3) s in
  let parse := run ([Render (Some a)] ++ noise1 ++
                    [FetchSettles i (Fulfilled resp)] ++ noise2 ++
                    [JsonSettles i (Rejected err)] ++ noise3) s in
  truthy a = true → unmounted s = false → deps s ≠ Some (Some a) →
  ok resp = true → reported err = false →
  Forall (λ ev, settles_other i ev = true) (noise1 ++ noise2) →
  Forall (λ ev, is_settlement ev = true) noise3 →
  observe network = (data s, false, None) ∧
  observe parse = (data s, false, None).
Proof.
  intros s i network parse Ha Hm Hd Hok Hrep Hn Hn3.
  pose proof Hn as Hn'. apply Forall_app in Hn' as [Hn1 _].
  split.
  - subst network i s.
    rewrite (current_fetch_failure evs a noise1
               (FetchSettles _ (Rejected err)) err noise3 Ha Hm Hd);
      [by rewrite Hrep| |done|done].
    intros s1 Hs1. by apply awaiting_fetch_rejected.
  - subst parse i s.
    rewrite (current_json_failure evs a resp noise1 noise2 err noise3
               Ha Hm Hd Hok Hn Hn3). by rewrite Hrep.
Qed.

Lemma unreported_rejection_is_swallowed_witness :
  let err := {| is_Error := false; name := ""; message := "offline" |} in
  let s := run answered init in
  let i := length (retrievals s) in
  let network := run ([Render (Some "b")] ++ [] ++
                      [FetchSettles i (Rejected err)] ++ []) s in
  let parse := run ([Render (Some "b")] ++ [] ++
                    [FetchSettles i (Fulfilled ok_200)] ++ [] ++
                    [JsonSettles i (Rejected err)] ++ []) s in
  observe network = (data s, false, None) ∧
  observe parse = (data s, false, None).
Proof.
  apply (unreported_rejection_is_swallowed nat answered "b" ok_200
           {| is_Error := false; name := ""; message := "offline" |}
           [] [] []).
  - reflexivity.
  - vm_compute. reflexivity.
  - vm_compute. discriminate.
  - reflexivity.
  - reflexivity.
  - constructor.
  - constructor.
Defined.

(** X4: in every reachable state at most one retrieval is in flight, every
    other one has had its controller aborted, and no retrieval was ever
    issued for an empty url. *)
Theorem at_most_one_live_retrieval (T : Type) (evs : list (Event T)) :
  let s := run evs init in
  (∀ i j, in_flight i s → in_flight j s → i = j) ∧
  (∀ i j r, in_flight i s → j ≠ i → retrievals s !! j = Some r →
            r_aborted r = true) ∧
  (∀ i r, retrievals s !! i = Some r → truthy (r_url r) = true).
Proof.
  intros s.
  pose proof (reachable_current_only evs) as Hc. fold s in Hc.
  destruct (reachable_well_formed evs) as [_ Hurls]. fold s in Hurls.
  assert (∀ i, in_flight i s → cleanup s = Some i) as Hlive.
  { intros i (r & Hr & Ha & _). by apply (Hc i r). }
  split; [|split].
  - intros i j Hi Hj. apply Hlive in Hi, Hj. congruence.
  - intros i j r Hi Hne Hr. apply Hlive in Hi.
    destruct (r_aborted r) eqn:Ha; [done|].
    pose proof (Hc j r Hr Ha). congruence.
  - intros i r Hr. rewrite Forall_lookup in Hurls. by apply (Hurls i r).
Qed.

(** X5: [data] changes only when a body parses: after any events it is
    what it was, or the parsed body of one of the settlements among them.
    So a tracker that holds a payload holds one for as long as no body
    parses to [null], whatever is rendered (the sentinel included), torn
    down or settled; a body that parses to [null] on the current retrieval
    sets [data] back to [null], with no error and [loading] false. *)
Theorem payload_cleared_only_by_null_body (T : Type) (s : Hook T)
    (evs : list (Event T)) :
  is_Some (data s) →
  (data (run evs s) = data s ∨
   ∃ i result, JsonSettles i (Fulfilled result) ∈ evs ∧
               data (run evs s) = result) ∧
  ((∀ i, JsonSettles i (Fulfilled None) ∉ evs) → is_Some (data (run evs s))) ∧
  (∀ i, awaiting i AwaitJson s →
        observe (step s (JsonSettles i (Fulfilled None))) = (None, false, None)).
Proof.
  intros Hs. split; [apply run_data|]. split.
  - intros Hnever.
    destruct (run_data s evs) as [-> | (i & result & Hin & ->)]; [done|].
    destruct result as [p|]; [by eexists|]. by apply Hnever in Hin.
  - intros i Hi. by apply awaiting_json_null.
Qed.

Lemma payload_cleared_only_by_null_body_witness :
  let s := run answered (init (T:=nat)) in
  is_Some (data (run [Render None; Render (Some "b");
                      FetchSettles 1 (Fulfilled {| status := 500 |}); Unmount]
                   s)) ∧
  observe (step (run [Render (Some "b"); FetchSettles 1 (Fulfilled ok_200)] s)
             (JsonSettles 1 (Fulfilled None))) = (None, false, None).
Proof.
  intros s. split.
  - destruct (payload_cleared_only_by_null_body nat s
                [Render None; Render (Some "b");
                 FetchSettles 1 (Fulfilled {| status := 500 |}); Unmount])
      as (_ & Hkeeps & _); [by eexists|].
    apply Hkeeps. intros i Hin.
    repeat (apply elem_of_cons in Hin as [Hin|Hin]; [discriminate Hin|]).
    by apply elem_of_nil in Hin.
  - destruct (payload_cleared_only_by_null_body nat
                (run [Render (Some "b"); FetchSettles 1 (Fulfilled ok_200)] s)
                [])
      as (_ & _ & Hnull); [by eexists|].
    apply Hnull. vm_compute. split; [done|]. split; [done|].
    split; [by eexists|].
    intros j r Hj Hr. destruct j as [|[|j]]; [|done|done].
    by injection Hr as <-.
Defined.

(** X6: the teardown aborts every controller: after it no retrieval is in
    flight, and whatever settles afterwards, [data] and [error] stay what
    they were at the teardown. *)
Theorem teardown_aborts_everything (T : Type) (evs later : list (Event T)) :
  let s := run (evs ++ [Unmount]) init in
  (∀ i r, retrievals s !! i = Some r → r_aborted r = true) ∧
  (∀ i, ¬ in_flight i s) ∧
  data (run later s) = data (run evs init) ∧
  error (run later s) = error (run evs init).
Proof.
  intros s.
  assert (unmounted s = true ∧ observe s = observe (run evs init)) as [Hm Hobs].
  { subst s. rewrite run_snoc. simpl. unfold unmount.
    destruct (unmounted (run evs init)) eqn:Hm; [done|].
    destruct (run_cleanup_cells (run evs init)) as [Hcells _].
    split; [done|]. exact Hcells. }
  destruct (reachable_well_formed (evs ++ [Unmount])) as [Hu _]. fold s in Hu.
  pose proof (reachable_current_only (evs ++ [Unmount])) as Hc. fold s in Hc.
  assert (∀ i r, retrievals s !! i = Some r → r_aborted r = true) as Hall.
  { intros i r Hr. destruct (r_aborted r) eqn:Ha; [done|].
    pose proof (Hc i r Hr Ha) as Hcl. rewrite (Hu Hm) in Hcl. done. }
  pose proof (teardown_run_silent s later Hm) as Hlater.
  split; [exact Hall|]. split.
  - intros i (r & Hr & Ha & _). rewrite (Hall i r Hr) in Ha. done.
  - rewrite Hobs in Hlater. by injection Hlater as -> _ ->.
Qed.

End TrackerExtras.

(** ** The persisted slot and the favorites: further properties *)

Module SlotExtras.
Import Js Exn UseLocalStorage SlotFacts Scenarios.

(** X7: initialising a slot never throws and never writes to the store,
    whatever the store holds and however it or the parser fails. The value
    differs from [initialValue] only when the store holds a non-empty text
    under the key that parses to it, and then nothing is logged; at most one
    error is logged, and only when the value is [initialValue]. *)
Theorem initialise_never_raises (T : Type)
    (JSON_parse : string → Error + T) key (initialValue : T) (w : World) :
  let r := initialise JSON_parse key initialValue w in
  localStorage r.1 = localStorage w ∧
  ∃ v, r.2 = inr v ∧
    (v = initialValue ∨
     ∃ text, Storage.getItem key (localStorage w) = inr (Some text) ∧
             truthy text = true ∧ JSON_parse text = inr v ∧ r.1 = w) ∧
    (r.1 = w ∨
     ∃ e, v = initialValue ∧
          console r.1 = console w ++ [(reading_message key, e)]).
Proof.
  intros r. subst r.
  unfold initialise, try_catch, bind, getItem, Storage.getItem, lift, throw,
    ret, modify, reading_message.
  destruct (Storage.getItem_error (localStorage w)) as [e|]; simpl.
  { split; [done|]. exists initialValue. split; [done|]. split; [by left|].
    right. by exists e. }
  destruct (Storage.items (localStorage w) !! key) as [text|]; simpl.
  2: { split; [done|]. exists initialValue. split; [done|]. split; by left. }
  destruct (truthy text) eqn:Ht; simpl.
  2: { split; [done|]. exists initialValue. split; [done|]. split; by left. }
  destruct (JSON_parse text) as [e|v] eqn:Hp; simpl.
  - split; [done|]. exists initialValue. split; [done|]. split; [by left|].
    right. by exists e.
  - split; [done|]. exists v. split; [done|]. split; [|by left].
    right. by exists text.
Qed.

(** X8: when [JSON.stringify] throws, [setValue] still returns normally and
    the in-memory value is the new one; the store is not touched and the
    error is logged. *)
Theorem stringify_failure_keeps_memory (T : Type)
    (JSON_stringify : T → Error + string) key rendered value (sl : Slot T)
    (e : Error) :
  let sl' := exec (setValue JSON_stringify key rendered value) sl in
  JSON_stringify (valueToStore value rendered) = inl e →
  outcome (setValue JSON_stringify key rendered value) sl = inr tt ∧
  storedValue sl' = valueToStore value rendered ∧
  localStorage (world sl') = localStorage (world sl) ∧
  console (world sl') = console (world sl) ++ [(setting_message key, e)].
Proof.
  intros sl' Hs. subst sl'. unfold outcome, exec.
  rewrite setValue_unfold. by rewrite Hs.
Qed.

Lemma stringify_failure_keeps_memory_witness :
  let cyclic := {| is_Error := true; name := "TypeError";
                   message := "Converting circular structure to JSON" |} in
  let sl := slot_of ["42"] empty_browser in
  let sl' := exec (setValue (λ _, inl cyclic) "k" ["42"] (inl ["7"])) sl in
  outcome (setValue (λ _, inl cyclic) "k" ["42"] (inl ["7"])) sl = inr tt ∧
  storedValue sl' = valueToStore (inl ["7"]) ["42"] ∧
  localStorage (world sl') = localStorage (world sl) ∧
  console (world sl') = console (world sl) ++ [(setting_message "k", cyclic)].
Proof.
  intros cyclic.
  apply (stringify_failure_keeps_memory (list string) (λ _, inl cyclic) "k"
           ["42"] (inl ["7"]) (slot_of ["42"] empty_browser) cyclic).
  reflexivity.
Defined.

(** X9: [setValue] writes under its own key only: whatever the codec and
    the store do, the items under every other key and the way the store
    fails are left as they were, and the in-memory value is always the new
    one. *)
Theorem setValue_touches_own_key_only (T : Type)
    (JSON_stringify : T → Error + string) key rendered value (sl : Slot T)
    other :
  let sl' := exec (setValue JSON_stringify key rendered value) sl in
  other ≠ key →
  Storage.items (localStorage (world sl')) !! other
    = Storage.items (localStorage (world sl)) !! other ∧
  Storage.getItem_error (localStorage (world sl'))
    = Storage.getItem_error (localStorage (world sl)) ∧
  Storage.setItem_error (localStorage (world sl'))
    = Storage.setItem_error (localStorage (world sl)) ∧
  storedValue sl' = valueToStore value rendered.
Proof.
  intros sl' Hne. subst sl'. unfold exec. rewrite setValue_unfold.
  destruct (JSON_stringify _) as [e|text]; simpl; [done|].
  unfold Storage.setItem.
  destruct (Storage.setItem_error _ _ _) as [e|]; simpl; [done|].
  by rewrite lookup_insert_ne.
Qed.

Lemma setValue_touches_own_key_only_witness :
  let sl := slot_of ["42"]
              {| localStorage := Storage.reliable {["theme" := "dark"]};
                 console := [] |} in
  let sl' := exec (setValue JsonStrings.stringify "recipe-favorites" ["42"]
                     (inl ["7"])) sl in
  Storage.items (localStorage (world sl')) !! "theme"
    = Storage.items (localStorage (world sl)) !! "theme" ∧
  Storage.getItem_error (localStorage (world sl'))
    = Storage.getItem_error (localStorage (world sl)) ∧
  Storage.setItem_error (localStorage (world sl'))
    = Storage.setItem_error (localStorage (world sl)) ∧
  storedValue sl' = valueToStore (inl ["7"]) ["42"].
Proof.
  apply (setValue_touches_own_key_only (list string) JsonStrings.stringify
           "recipe-favorites" ["42"] (inl ["7"])
           (slot_of ["42"]
              {| localStorage := Storage.reliable {["theme" := "dark"]};
                 console := [] |}) "theme").
  discriminate.
Defined.

End SlotExtras.

Module FavoritesExtras.
Import Js Exn UseLocalStorage Favorites SlotFacts FavoritesFacts Scenarios.
Import FavoriteButton.

Lemma elem_of_add_updater id j s : j ∈ add_updater id s ↔ j = id ∨ j ∈ s.
Proof.
  unfold add_updater. case_bool_decide as Hin.
  - split; [by right|]. by intros [->|?].
  - rewrite elem_of_app, list_elem_of_singleton. tauto.
Qed.

Lemma elem_of_remove_updater id j s : j ∈ remove_updater id s ↔ j ≠ id ∧ j ∈ s.
Proof. unfold remove_updater. by rewrite list_elem_of_filter. Qed.

Section Facts.
Variable JSON_stringify : list string → Error + string.
Implicit Types (sl : Slot (list string)) (id : string) (rendered : list string).

Lemma favorites_after_add rendered id sl :
  favorites (exec (addFavorite JSON_stringify rendered id) sl)
    = add_updater id rendered.
Proof.
  by destruct (setValue_total JSON_stringify KEY rendered
                 (inr (add_updater id)) sl).
Qed.

Lemma favorites_after_remove rendered id sl :
  favorites (exec (removeFavorite JSON_stringify rendered id) sl)
    = remove_updater id rendered.
Proof.
  by destruct (setValue_total JSON_stringify KEY rendered
                 (inr (remove_updater id)) sl).
Qed.

Lemma favorites_after_toggle rendered id sl :
  favorites (exec (handleToggleFavorite JSON_stringify rendered id) sl)
    = if bool_decide (id ∈ rendered)
      then remove_updater id rendered
      else rendered ++ [id].
Proof.
  unfold handleToggleFavorite, isFavorite.
  case_bool_decide as Hin.
  - apply favorites_after_remove.
  - rewrite favorites_after_add. unfold add_updater.
    by rewrite bool_decide_eq_false_2.
Qed.

Lemma perform_is_setValue rendered a :
  ∃ updater, perform JSON_stringify rendered a
             = setValue JSON_stringify KEY rendered (inr updater).
Proof.
  destruct a as [id|id|id]; simpl.
  - by exists (add_updater id).
  - by exists (remove_updater id).
  - unfold handleToggleFavorite. case_match.
    + by exists (remove_updater id).
    + by exists (add_updater id).
Qed.

Lemma perform_returns rendered a sl :
  outcome (perform JSON_stringify rendered a) sl = inr tt.
Proof.
  destruct (perform_is_setValue rendered a) as [updater ->].
  by destruct (setValue_total JSON_stringify KEY rendered (inr updater) sl).
Qed.

Lemma perform_NoDup rendered a sl :
  NoDup rendered →
  NoDup (favorites (exec (perform JSON_stringify rendered a) sl)).
Proof.
  intros Hnd. destruct a as [id|id|id]; simpl.
  - rewrite favorites_after_add. by apply add_updater_NoDup.
  - rewrite favorites_after_remove. by apply remove_updater_NoDup.
  - rewrite favorites_after_toggle. case_bool_decide as Hin.
    + by apply remove_updater_NoDup.
    + apply NoDup_app. split; [done|]. split; [|apply NoDup_singleton].
      intros x Hx Hx'. apply list_elem_of_singleton in Hx' as ->. done.
Qed.

End Facts.

(** A store that answers every read and accepts every write. *)
Local Abbreviation dependable sl :=
  (Storage.getItem_error (localStorage (world sl)) = None ∧
   ∀ k t, Storage.setItem_error (localStorage (world sl)) k t = None).

Lemma perform_synced
    (JSON_stringify : list string → Error + string)
    (JSON_parse : string → Error + list string) rendered a sl :
  (∀ v, ∃ text, JSON_stringify v = inr text ∧ JSON_parse text = inr v ∧
                truthy text = true) →
  dependable sl →
  let sl' := exec (perform JSON_stringify rendered a) sl in
  provider JSON_parse (world sl') = sl' ∧ dependable sl'.
Proof.
  intros Hcodec [Hr Hw] sl'. subst sl'.
  destruct (perform_is_setValue JSON_stringify rendered a) as [updater ->].
  destruct (Hcodec (valueToStore (inr updater) rendered))
    as (text & Hs & Hq & Ht).
  split.
  - by apply (slot_round_trip JSON_stringify JSON_parse KEY [] rendered
                (inr updater) sl text).
  - destruct (setValue_store_errors JSON_stringify KEY rendered
                (inr updater) sl) as [Hr' Hw'].
    split; [by rewrite Hr'|]. intros k t. by rewrite Hw'.
Qed.

(** X10: whatever the codec and the store do, after [addFavorite id] the
    next render has the id as a favorite and after [removeFavorite id] it
    has not, and neither call changes whether any other id is a favorite.
    The calls are those of the render that shows the slot. *)
Theorem membership_after_add_remove
    (JSON_stringify : list string → Error + string)
    (sl : Slot (list string)) id other :
  let added := exec (addFavorite JSON_stringify (favorites sl) id) sl in
  let removed := exec (removeFavorite JSON_stringify (favorites sl) id) sl in
  other ≠ id →
  isFavorite (favorites added) id = true ∧
  isFavorite (favorites removed) id = false ∧
  isFavorite (favorites added) other = isFavorite (favorites sl) other ∧
  isFavorite (favorites removed) other = isFavorite (favorites sl) other.
Proof.
  intros added removed Hne. subst added removed. unfold isFavorite.
  rewrite !favorites_after_add, !favorites_after_remove.
  split; [|split; [|split]].
  - apply bool_decide_eq_true_2, add_updater_present.
  - apply bool_decide_eq_false_2. rewrite elem_of_remove_updater. by intros [? _].
  - apply bool_decide_ext. rewrite elem_of_add_updater. tauto.
  - apply bool_decide_ext. rewrite elem_of_remove_updater. tauto.
Qed.

Lemma membership_after_add_remove_witness :
  let sl := slot_of ["42"; "7"] full_browser in
  let added := exec (addFavorite JsonStrings.stringify (favorites sl) "9") sl in
  let removed :=
    exec (removeFavorite JsonStrings.stringify (favorites sl) "9") sl in
  isFavorite (favorites added) "9" = true ∧
  isFavorite (favorites removed) "9" = false ∧
  isFavorite (favorites added) "7" = isFavorite (favorites sl) "7" ∧
  isFavorite (favorites removed) "7" = isFavorite (favorites sl) "7".
Proof.
  apply (membership_after_add_remove JsonStrings.stringify
           (slot_of ["42"; "7"] full_browser) "9" "7").
  discriminate.
Defined.

(** X11: the favorite button flips whether the recipe is a favorite and
    leaves every other id as it was. Pressed again on the page rendered
    after the first press, it restores the sequence of a recipe that was no
    favorite, and moves the id of a favorite of a duplicate-free sequence to
    the end. *)
Theorem toggle_flips_membership
    (JSON_stringify : list string → Error + string)
    (sl : Slot (list string)) id :
  let once := exec (handleToggleFavorite JSON_stringify (favorites sl) id) sl in
  let twice :=
    exec (handleToggleFavorite JSON_stringify (favorites once) id) once in
  NoDup (favorites sl) →
  isFavorite (favorites once) id = negb (isFavorite (favorites sl) id) ∧
  (∀ other, other ≠ id →
     isFavorite (favorites once) other = isFavorite (favorites sl) other) ∧
  isFavorite (favorites twice) id = isFavorite (favorites sl) id ∧
  favorites twice = if isFavorite (favorites sl) id
                    then remove_updater id (favorites sl) ++ [id]
                    else favorites sl.
Proof.
  intros once twice Hnd. subst twice once. unfold isFavorite.
  rewrite !favorites_after_toggle.
  destruct (decide (id ∈ favorites sl)) as [Hin|Hin].
  - rewrite (bool_decide_eq_true_2 (id ∈ favorites sl)) by done.
    assert (id ∉ remove_updater id (favorites sl)) as Hgone
      by apply remove_updater_gone.
    rewrite (bool_decide_eq_false_2 (id ∈ remove_updater _ _)) by done.
    split; [done|]. split; [|split; [|done]].
    + intros other Hne. apply bool_decide_ext.
      rewrite elem_of_remove_updater. tauto.
    + apply bool_decide_eq_true_2, elem_of_app. right. apply list_elem_of_here.
  - rewrite (bool_decide_eq_false_2 (id ∈ favorites sl)) by done.
    assert (id ∈ favorites sl ++ [id]) as Hnow.
    { apply elem_of_app. right. apply list_elem_of_here. }
    rewrite (bool_decide_eq_true_2 (id ∈ favorites sl ++ [id])) by done.
    split; [done|]. split; [|split].
    + intros other Hne. apply bool_decide_ext.
      rewrite elem_of_app, list_elem_of_singleton. tauto.
    + apply bool_decide_eq_false_2. rewrite elem_of_remove_updater.
      by intros [? _].
    + unfold remove_updater. rewrite filter_app.
      fold (remove_updater id (favorites sl)).
      rewrite remove_updater_absent by done.
      rewrite filter_cons_False by (intros Hx; by apply Hx). apply app_nil_r.
Qed.

Lemma toggle_flips_membership_witness :
  let sl := slot_of ["42"; "7"; "9"] empty_browser in
  let once :=
    exec (handleToggleFavorite JsonStrings.stringify (favorites sl) "42") sl in
  let twice :=
    exec (handleToggleFavorite JsonStrings.stringify (favorites once) "42")
      once in
  favorites twice = ["7"; "9"; "42"].
Proof.
  intros sl once twice.
  assert (NoDup (favorites sl)) as Hnd.
  { apply (bool_decide_unpack (NoDup (favorites sl))). vm_compute. exact I. }
  destruct (toggle_flips_membership JsonStrings.stringify sl "42" Hnd)
    as (_ & _ & _ & Htwice).
  exact Htwice.
Defined.

(** X12: any sequence of add, remove and toggle actions, each performed
    from the render after the previous one, runs without an exception
    reaching the caller, whatever the codec and the store do, and keeps a
    duplicate-free favorite sequence duplicate-free. *)
Theorem actions_keep_favorites_duplicate_free
    (JSON_stringify : list string → Error + string)
    (acts : list Action) (sl : Slot (list string)) :
  NoDup (favorites sl) →
  (perform_all JSON_stringify acts sl).2 = None ∧
  NoDup (favorites (perform_all JSON_stringify acts sl).1).
Proof.
  revert sl. induction acts as [|a acts IH]; intros sl Hnd; [done|].
  simpl. pose proof (perform_returns JSON_stringify (favorites sl) a sl) as Hret.
  pose proof (perform_NoDup JSON_stringify (favorites sl) a sl Hnd) as Hnd'.
  unfold outcome, exec in *.
  destruct (perform JSON_stringify (favorites sl) a sl) as [sl' [e|[]]];
    simpl in *; [done|].
  by apply IH.
Qed.

Lemma actions_keep_favorites_duplicate_free_witness :
  let r := perform_all JsonStrings.stringify
             [Add "1"; Add "2"; Add "1"; Toggle "1"; Remove "3"; Toggle "3"]
             (slot_of [] full_browser) in
  r.2 = None ∧ NoDup (favorites r.1).
Proof.
  apply (actions_keep_favorites_duplicate_free JsonStrings.stringify
           [Add "1"; Add "2"; Add "1"; Toggle "1"; Remove "3"; Toggle "3"]
           (slot_of [] full_browser)).
  constructor.
Defined.

(** X13: with a store that answers every read and accepts every write, and
    a codec that reads back what it wrote, the favorites stay in step with
    the store over any session: after any non-empty sequence of add, remove
    and toggle actions, a provider mounted on the store that the session
    left behind has exactly the favorites of the session, and logs
    nothing. *)
Theorem favorites_session_survives_reload
    (JSON_stringify : list string → Error + string)
    (JSON_parse : string → Error + list string)
    (acts : list Action) (sl : Slot (list string)) :
  (∀ v, ∃ text, JSON_stringify v = inr text ∧ JSON_parse text = inr v ∧
                truthy text = true) →
  Storage.getItem_error (localStorage (world sl)) = None →
  (∀ k t, Storage.setItem_error (localStorage (world sl)) k t = None) →
  acts ≠ [] →
  let sl' := (perform_all JSON_stringify acts sl).1 in
  provider JSON_parse (world sl') = sl'.
Proof.
  intros Hcodec Hr Hw Hne sl'. subst sl'.
  assert (dependable sl) as Hdep by done. clear Hr Hw.
  revert sl Hdep. induction acts as [|a acts IH]; intros sl Hdep; [done|].
  destruct (perform_synced JSON_stringify JSON_parse (favorites sl) a sl
              Hcodec Hdep) as [Hsync Hdep'].
  pose proof (perform_returns JSON_stringify (favorites sl) a sl) as Hret.
  simpl. unfold outcome, exec in *.
  destruct (perform JSON_stringify (favorites sl) a sl) as [sl1 [e|[]]];
    simpl in *; [done|].
  destruct acts as [|b acts]; [done|]. by apply IH.
Qed.

Lemma favorites_session_survives_reload_witness :
  let sl' := (perform_all JsonStrings.stringify
                [Add "1"; Add "2"; Toggle "1"; Remove "3"]
                (slot_of [] empty_browser)).1 in
  provider JsonStrings.parse (world sl') = sl'.
Proof.
  apply (favorites_session_survives_reload JsonStrings.stringify
           JsonStrings.parse [Add "1"; Add "2"; Toggle "1"; Remove "3"]
           (slot_of [] empty_browser)).
  - intros v. exists (JsonStrings.text v). split; [reflexivity|].
    split; [apply JsonStringsFacts.parse_text|reflexivity].
  - reflexivity.
  - reflexivity.
  - discriminate.
Defined.

(** X22: on a duplicate-free favorite sequence, a call made by the render
    that shows the sequence behaves as the model does. [addFavorite]
    returns normally and yields the model's [add]: the sequence unchanged
    when the id is present, the id appended at the end otherwise.
    [removeFavorite] returns normally and yields the model's [remove]: the
    id is gone, and the sequence is unchanged when the id was absent. Both
    keep the sequence duplicate-free, and after either one the store holds
    the serialised result under the key whenever it accepts the write.
    Adding ["42"] and then, from the next render, ["7"] to the empty
    sequence lists [["42"; "7"]]. *)
Theorem render_call_refines_model
    (JSON_stringify : list string → Error + string)
    (sl : Slot (list string)) (id : string) :
  NoDup (favorites sl) →
  let add := addFavorite JSON_stringify (favorites sl) id in
  let rem := removeFavorite JSON_stringify (favorites sl) id in
  let sl0 := slot_of [] (world sl) in
  let sl1 := exec (addFavorite JSON_stringify (favorites sl0) "42") sl0 in
  let sl2 := exec (addFavorite JSON_stringify (favorites sl1) "7") sl1 in
  (outcome add sl = inr tt ∧
   favorites (exec add sl) = FavoritesModel.add id (favorites sl) ∧
   NoDup (favorites (exec add sl)) ∧
   (id ∈ favorites sl → favorites (exec add sl) = favorites sl) ∧
   (id ∉ favorites sl → favorites (exec add sl) = favorites sl ++ [id])) ∧
  (outcome rem sl = inr tt ∧
   favorites (exec rem sl) = FavoritesModel.remove id (favorites sl) ∧
   NoDup (favorites (exec rem sl)) ∧
   (id ∉ favorites (exec rem sl)) ∧
   (id ∉ favorites sl → favorites (exec rem sl) = favorites sl)) ∧
  (∀ op text,
     op = add ∨ op = rem →
     JSON_stringify (favorites (exec op sl)) = inr text →
     Storage.setItem_error (localStorage (world sl)) KEY text = None →
     Storage.items (localStorage (world (exec op sl))) !! KEY = Some text) ∧
  FavoritesModel.list (favorites sl2) = ["42"; "7"].
Proof.
  intros Hnd add rem sl0 sl1 sl2.
  destruct (setValue_total JSON_stringify KEY (favorites sl)
              (inr (add_updater id)) sl) as [Hoa Hva].
  destruct (setValue_total JSON_stringify KEY (favorites sl)
              (inr (remove_updater id)) sl) as [Hor Hvr].
  assert (favorites (exec add sl) = add_updater id (favorites sl)) as Ea
    by apply favorites_after_add.
  assert (favorites (exec rem sl) = remove_updater id (favorites sl)) as Er
    by apply favorites_after_remove.
  split; [|split; [|split]].
  - split; [exact Hoa|]. rewrite Ea.
    split; [apply add_updater_model|]. split; [by apply add_updater_NoDup|].
    unfold add_updater. split; intros Hin.
    + by rewrite bool_decide_eq_true_2.
    + by rewrite bool_decide_eq_false_2.
  - split; [exact Hor|]. rewrite Er.
    split; [by apply remove_updater_model|].
    split; [by apply remove_updater_NoDup|].
    split; [apply remove_updater_gone|apply remove_updater_absent].
  - intros op text [-> | ->] Hs Hw.
    + rewrite Ea in Hs.
      by apply (setValue_persists JSON_stringify KEY (favorites sl)
                  (inr (add_updater id)) sl text).
    + rewrite Er in Hs.
      by apply (setValue_persists JSON_stringify KEY (favorites sl)
                  (inr (remove_updater id)) sl text).
  - unfold FavoritesModel.list. subst sl2.
    rewrite favorites_after_add. subst sl1. by rewrite favorites_after_add.
Qed.

Lemma render_call_refines_model_witness :
  let sl := slot_of ["42"; "7"] empty_browser in
  let add := addFavorite JsonStrings.stringify (favorites sl) "9" in
  let rem := removeFavorite JsonStrings.stringify (favorites sl) "42" in
  NoDup (favorites sl) ∧
  favorites (exec add sl) = ["42"; "7"; "9"] ∧
  favorites (exec rem sl) = ["7"].
Proof.
  intros sl add rem.
  assert (NoDup (favorites sl)) as Hnd.
  { apply (bool_decide_unpack (NoDup (favorites sl))). vm_compute. exact I. }
  split; [exact Hnd|]. split.
  - destruct (render_call_refines_model JsonStrings.stringify sl "9" Hnd)
      as [(_ & Ha & _) _]. exact Ha.
  - destruct (render_call_refines_model JsonStrings.stringify sl "42" Hnd)
      as (_ & (_ & Hr & _) & _). exact Hr.
Defined.

End FavoritesExtras.

(** ** The favorites page: hydration order and requests *)

Module HydrationFacts.
Import Js FavoritesPage FavoritesPageFacts Hydration.

Section Facts.
Context {Recipe : Type}.
Variable encodeURIComponent : string → string.
Variable null_index_message : string.
Local Abbreviation lookup_settles := (lookup_settles null_index_message).
Local Abbreviation lookup := (lookup null_index_message).
Local Abbreviation step := (step encodeURIComponent null_index_message).
Local Abbreviation run := (run encodeURIComponent null_index_message).
Local Abbreviation run_effect := (run_effect encodeURIComponent).
Implicit Types (s : Page Recipe) (b : Batch Recipe) (ids : list string).
Implicit Types (tvs : list (Transport Recipe * option Recipe)).

(** [Promise.all] fulfils with the values in the order of the lookups. *)
Lemma all_fulfilled_values tvs :
  all_fulfilled ((λ tv, Some (Fulfilled tv.2)) <$> tvs) = Some tvs.*2.
Proof.
  unfold all_fulfilled. apply mapM_Some_2.
  induction tvs as [|tv tvs IH]; constructor; done.
Qed.

(** A settlement keeps the [favorites] of the last render. *)
Lemma lookup_settles_favorites k i t s :
  favorites (lookup_settles k i t s) = favorites s.
Proof.
  unfold FavoritesPage.lookup_settles. repeat case_match; done.
Qed.

Lemma lookup_settles_requests k i t s :
  requests (lookup_settles k i t s) = requests s.
Proof.
  unfold FavoritesPage.lookup_settles. repeat case_match; done.
Qed.

Lemma run_effect_filled ids tvs s :
  ids ≠ [] → length tvs = length ids →
  filled (length (batches s)) ids tvs [] (run_effect ids s).
Proof.
  intros Hne Hlen.
  destruct (run_effect_starts encodeURIComponent ids s Hne) as (Hb & _).
  exists (new_batch ids). rewrite Hb. split; [by rewrite list_lookup_middle|].
  split; [done|]. split; [done|]. simpl. split; [apply length_replicate|].
  intros j tv Hj. rewrite ?bool_decide_eq_false_2 by apply not_elem_of_nil.
  apply lookup_replicate_2. rewrite <- Hlen. by apply lookup_lt_Some with tv.
Qed.

(** One more lookup fulfils while another is still pending. *)
Lemma filled_step k ids tvs seen i tv j s :
  Forall2 (λ id tv, lookup id tv.1 = Fulfilled tv.2) ids tvs →
  filled k ids tvs seen s →
  tvs !! i = Some tv → i ∉ seen →
  j ≠ i → j ∉ seen → j < length ids →
  let s1 := lookup_settles k i tv.1 s in
  filled k ids tvs (seen ++ [i]) s1 ∧ observe s1 = observe s.
Proof.
  intros Hall (b & Hk & Hids & Hopen & Hlen & Hres) Hi Hseen Hji Hj Hjn.
  destruct (Forall2_lookup_r _ _ _ _ _ Hall Hi) as (id & Hid & Hl).
  pose proof (Forall2_length _ _ _ Hall) as Hlen2.
  assert (is_Some (tvs !! j)) as [tvj Htvj].
  { apply lookup_lt_is_Some. by rewrite <- Hlen2. }
  assert (k < length (batches s)) as Hlt by (by apply lookup_lt_Some with b).
  unfold FavoritesPage.lookup_settles. rewrite Hk, Hids, Hid.
  rewrite (Hres i tv Hi). rewrite bool_decide_eq_false_2 by done.
  rewrite Hl, Hopen.
  rewrite (all_fulfilled_pending _ j).
  2: { simpl. rewrite list_lookup_insert_ne by done.
       rewrite (Hres j tvj Htvj). by rewrite bool_decide_eq_false_2. }
  split; [|done].
  eexists. simpl. rewrite list_lookup_insert_eq by done.
  split; [done|]. simpl. split; [done|]. split; [done|].
  split; [by rewrite length_insert|].
  intros m tvm Hm. destruct (decide (m = i)) as [->|Hmi].
  - rewrite list_lookup_insert_eq.
    + rewrite bool_decide_eq_true_2; [congruence|].
      apply elem_of_app. right. apply list_elem_of_here.
    + rewrite Hlen, Hlen2. by apply lookup_lt_Some with tvm.
  - rewrite list_lookup_insert_ne by done. rewrite (Hres m tvm Hm).
    rewrite (bool_decide_ext (m ∈ seen ++ [i]) (m ∈ seen)); [done|].
    rewrite elem_of_app, list_elem_of_singleton.
    split; [intros [?|?]; [done|congruence] | by left].
Qed.

(** The last pending lookup fulfils. *)
Lemma filled_last k ids tvs seen i tv s :
  Forall2 (λ id tv, lookup id tv.1 = Fulfilled tv.2) ids tvs →
  filled k ids tvs seen s →
  tvs !! i = Some tv → i ∉ seen →
  (∀ j, j < length ids → j = i ∨ j ∈ seen) →
  let s1 := lookup_settles k i tv.1 s in
  observe s1 = (filter_Boolean tvs.*2, false, error s).
Proof.
  intros Hall (b & Hk & Hids & Hopen & Hlen & Hres) Hi Hseen Hcover.
  destruct (Forall2_lookup_r _ _ _ _ _ Hall Hi) as (id & Hid & Hl).
  pose proof (Forall2_length _ _ _ Hall) as Hlen2.
  unfold FavoritesPage.lookup_settles. rewrite Hk, Hids, Hid.
  rewrite (Hres i tv Hi). rewrite bool_decide_eq_false_2 by done.
  rewrite Hl, Hopen.
  assert (b_results (record_result i (Fulfilled tv.2) b)
          = (λ tv, Some (Fulfilled tv.2)) <$> tvs) as ->.
  { simpl. apply list_eq. intros m. rewrite list_lookup_fmap.
    destruct (tvs !! m) as [tvm|] eqn:Hm; simpl.
    - assert (m < length ids) as Hmn.
      { rewrite Hlen2. by apply lookup_lt_Some with tvm. }
      destruct (decide (m = i)) as [->|Hmi].
      + rewrite list_lookup_insert_eq by (by rewrite Hlen). congruence.
      + rewrite list_lookup_insert_ne by done. rewrite (Hres m tvm Hm).
        destruct (Hcover m Hmn) as [?|Hin]; [done|].
        by rewrite bool_decide_eq_true_2.
    - apply lookup_ge_None. rewrite length_insert, Hlen, Hlen2.
      by apply lookup_ge_None. }
  by rewrite all_fulfilled_values.
Qed.

Lemma settle_in_order_cons k (ts : list (Transport Recipe)) i t order :
  ts !! i = Some t →
  settle_in_order k ts (i :: order)
    = LookupSettles k i t :: settle_in_order k ts order.
Proof. intros Hi. unfold settle_in_order. simpl. by rewrite Hi. Qed.

Lemma page_run_cons k i t evs s :
  run (LookupSettles k i t :: evs) s = run evs (lookup_settles k i t s).
Proof. reflexivity. Qed.

(** The lookups still pending fulfil one after the other. *)
Lemma filled_run k ids tvs rest seen s :
  Forall2 (λ id tv, lookup id tv.1 = Fulfilled tv.2) ids tvs →
  NoDup (seen ++ rest) →
  (∀ j, j < length ids ↔ j ∈ seen ++ rest) →
  rest ≠ [] →
  filled k ids tvs seen s →
  let s' := run (settle_in_order k tvs.*1 rest) s in
  observe s' = (filter_Boolean tvs.*2, false, error s) ∧
  favorites s' = favorites s.
Proof.
  intros Hall. pose proof (Forall2_length _ _ _ Hall) as Hlen2.
  revert seen s. induction rest as [|i rest IH]; intros seen s Hnd Hcover Hne Hs;
    [done|].
  assert (i < length ids) as Hin.
  { apply Hcover, elem_of_app. right. apply list_elem_of_here. }
  assert (is_Some (tvs !! i)) as [tv Hi].
  { apply lookup_lt_is_Some. by rewrite <- Hlen2. }
  assert (i ∉ seen) as Hdone.
  { apply NoDup_app in Hnd as (_ & Hdisj & _). intros Hd.
    apply (Hdisj i Hd), list_elem_of_here. }
  rewrite (settle_in_order_cons k tvs.*1 i tv.1 rest)
    by (by rewrite list_lookup_fmap, Hi).
  rewrite page_run_cons.
  destruct rest as [|j rest].
  - simpl. split; [|apply lookup_settles_favorites].
    apply (filled_last k ids tvs seen i tv s Hall Hs Hi Hdone).
    intros m Hm. apply Hcover in Hm. apply elem_of_app in Hm as [Hm|Hm];
      [by right|]. apply list_elem_of_singleton in Hm. by left.
  - assert (NoDup ((seen ++ [i]) ++ j :: rest)) as Hnd'
      by (by rewrite <- app_assoc).
    assert (∀ m, m < length ids ↔ m ∈ (seen ++ [i]) ++ j :: rest) as Hcover'.
    { intros m. by rewrite <- app_assoc. }
    assert (j ≠ i ∧ (j ∉ seen) ∧ j < length ids) as (Hji & Hjd & Hjn).
    { apply NoDup_app in Hnd as (_ & Hdisj & Hnd2).
      apply NoDup_cons in Hnd2 as [Hij _].
      split; [|split].
      - intros ->. apply Hij, list_elem_of_here.
      - intros Hd. apply (Hdisj j Hd). apply list_elem_of_further,
          list_elem_of_here.
      - apply Hcover, elem_of_app. right.
        apply list_elem_of_further, list_elem_of_here. }
    destruct (filled_step k ids tvs seen i tv j s Hall Hs Hi Hdone Hji Hjd Hjn)
      as [Hs1 Hobs1].
    destruct (IH (seen ++ [i]) _ Hnd' Hcover' ltac:(done) Hs1) as [Hobs Hfav].
    split.
    + rewrite Hobs. injection Hobs1 as _ _ ->. done.
    + by rewrite Hfav, lookup_settles_favorites.
Qed.

(** *** Every request is a lookup of a batch *)

Lemma step_requests s ev :
  requests s = requests_of encodeURIComponent (batches s) →
  requests (step s ev) = requests_of encodeURIComponent (batches (step s ev)).
Proof.
  intros Hs. destruct ev as [ids|k i t]; simpl.
  - unfold FavoritesPage.run_effect. case_bool_decide; [done|].
    simpl. rewrite Hs. unfold requests_of. rewrite bind_app. simpl.
    by rewrite app_nil_r.
  - rewrite lookup_settles_requests, Hs.
    unfold FavoritesPage.lookup_settles.
    destruct (batches s !! k) as [b|] eqn:Hk; [|done].
    destruct (b_ids b !! i) as [id|]; [|done].
    destruct (b_results b !! i) as [[o|]|]; try done.
    assert (∀ b', b_ids b' = b_ids b →
              requests_of encodeURIComponent (<[k:=b']> (batches s))
              = requests_of encodeURIComponent (batches s)) as Hins.
    { intros b' Hb'. unfold requests_of.
      rewrite <- (take_drop_middle (batches s) k b Hk) at 2.
      rewrite insert_take_drop by (by apply lookup_lt_Some with b).
      rewrite !bind_app. simpl. by rewrite Hb'. }
    repeat case_match; simpl; by rewrite Hins.
Qed.

End Facts.
End HydrationFacts.

Module FavoritesPageExtras.
Import Js FavoritesPage FavoritesPageFacts Hydration HydrationFacts PageInputs.

(** X14: when every lookup of a batch fulfils, in whatever order the
    lookups settle, the page ends with the recipes in the order of the
    favorite ids, not of arrival, without the lookups that found no recipe;
    [loading] is false, no error is set and the recipes are on screen. *)
Theorem hydration_keeps_id_order (Recipe : Type)
    (encodeURIComponent : string → string) (null_index_message : string)
    (s : Page Recipe) ids (tvs : list (Transport Recipe * option Recipe))
    order :
  let k := length (batches s) in
  let s' := run encodeURIComponent null_index_message
              (settle_in_order k tvs.*1 order)
              (run_effect encodeURIComponent ids s) in
  ids ≠ [] →
  Forall2 (λ id tv, lookup null_index_message id tv.1 = Fulfilled tv.2)
    ids tvs →
  order ≡ₚ seq 0 (length ids) →
  observe s' = (filter_Boolean tvs.*2, false, None) ∧
  view s' = FavoritesGrid (filter_Boolean tvs.*2).
Proof.
  intros k s' Hne Hall Hperm.
  pose proof (Forall2_length _ _ _ Hall) as Hlen.
  destruct (run_effect_starts encodeURIComponent ids s Hne)
    as (_ & _ & _ & He0 & _ & Hf0).
  assert (order ≠ []) as Hone.
  { intros ->. apply Permutation_nil_l in Hperm.
    destruct ids; [done|]. simpl in Hperm. discriminate. }
  destruct (filled_run encodeURIComponent null_index_message k ids tvs order []
              (run_effect encodeURIComponent ids s) Hall) as [Hobs Hfav].
  - simpl. rewrite Hperm. apply NoDup_seq.
  - intros j. simpl. rewrite Hperm, elem_of_seq. lia.
  - done.
  - by apply run_effect_filled.
  - fold s' in Hobs, Hfav. rewrite He0 in Hobs. split; [exact Hobs|].
    injection Hobs as Hr Hl He. unfold view.
    rewrite Hl, He, Hr, Hfav, Hf0.
    rewrite bool_decide_eq_false_2; [done|]. by destruct ids.
Qed.

Lemma hydration_keeps_id_order_witness :
  let tvs := [(found recipe_1, Some recipe_1);
              (Responded {| status := 200 |}
                 (Fulfilled {| meals := Some [] |}), None);
              (found recipe_2, Some recipe_2)] in
  let s' := run encode_digits v8_null_index
              (settle_in_order 0 tvs.*1 [2; 0; 1])
              (run_effect encode_digits ["1"; "9"; "2"] init) in
  observe s' = ([recipe_1; recipe_2], false, None) ∧
  view s' = FavoritesGrid [recipe_1; recipe_2].
Proof.
  intros tvs.
  apply (hydration_keeps_id_order Meal encode_digits v8_null_index init
           ["1"; "9"; "2"] tvs [2; 0; 1]).
  - discriminate.
  - repeat constructor.
  - apply (Permutation_trans (l' := [0; 2; 1])).
    + apply perm_swap.
    + apply perm_skip, perm_swap.
Defined.

(** X15: when the favorites become empty the effect clears the recipes,
    starts no batch and issues no request, and leaves [loading] and [error]
    as they were. From then on no recipe card is on screen, whatever lookups
    of earlier batches settle. *)
Theorem empty_favorites_show_no_card (Recipe : Type)
    (encodeURIComponent : string → string) (null_index_message : string)
    (s : Page Recipe) (later : list (Event Recipe)) :
  let s0 := run_effect encodeURIComponent [] s in
  let s' := run encodeURIComponent null_index_message later s0 in
  Forall (λ ev, ∃ k, settles_in k ev = true) later →
  observe s0 = ([], loading s, error s) ∧
  batches s0 = batches s ∧ requests s0 = requests s ∧
  favorites s' = [] ∧ requests s' = requests s ∧
  rendered (view s') = [].
Proof.
  intros s0 s' Hlater.
  assert (favorites s' = [] ∧ requests s' = requests s) as [Hfav Hreq].
  { subst s'. assert (favorites s0 = [] ∧ requests s0 = requests s) as Hs0
      by done.
    clearbody s0. revert s0 Hs0.
    induction Hlater as [|ev later [k Hev] _ IH]; intros s0 Hs0; [done|].
    simpl. apply IH. destruct ev as [ids|k' i t]; [done|]. simpl.
    by rewrite lookup_settles_favorites, lookup_settles_requests. }
  split; [done|]. split; [done|]. split; [done|].
  split; [exact Hfav|]. split; [exact Hreq|].
  unfold view. rewrite Hfav. simpl.
  destruct (loading s'); [done|]. destruct (error s') as [e|]; [|done].
  by destruct (truthy e).
Qed.

Lemma empty_favorites_show_no_card_witness :
  let s := run encode_digits v8_null_index [Effect ["1"]] init in
  let s0 := run_effect encode_digits [] s in
  let s' := run encode_digits v8_null_index
              [LookupSettles 0 0 (found recipe_1)] s0 in
  observe s0 = ([], loading s, error s) ∧
  batches s0 = batches s ∧ requests s0 = requests s ∧
  favorites s' = [] ∧ requests s' = requests s ∧
  rendered (view s') = [].
Proof.
  intros s.
  apply (empty_favorites_show_no_card Meal encode_digits v8_null_index s
           [LookupSettles 0 0 (found recipe_1)]).
  repeat constructor. by exists 0.
Defined.

(** X16: in every reachable state the [fetch] calls the page has made are
    exactly the lookups of the ids of the batches it started, one per id and
    in order: a settlement never issues a request, and no request goes
    anywhere but to the lookup endpoint. *)
Theorem one_lookup_per_favorite (Recipe : Type)
    (encodeURIComponent : string → string) (null_index_message : string)
    (evs : list (Event Recipe)) :
  let s := run encodeURIComponent null_index_message evs init in
  requests s = requests_of encodeURIComponent (batches s) ∧
  length (requests s) = sum_list (length ∘ b_ids <$> batches s).
Proof.
  intros s.
  assert (requests s = requests_of encodeURIComponent (batches s)) as Hreq.
  { subst s. generalize (@init Recipe) (eq_refl : requests (@init Recipe)
      = requests_of encodeURIComponent (batches (@init Recipe))).
    induction evs as [|ev evs IH]; intros s0 Hs0; [done|].
    simpl. apply IH. by apply step_requests. }
  split; [exact Hreq|]. rewrite Hreq. unfold requests_of. clear Hreq.
  induction (batches s) as [|b bs IH]; [done|].
  rewrite bind_cons, length_app, length_fmap, fmap_cons. simpl.
  by rewrite IH.
Qed.

(** X23: the strict policy. The effect run issues the lookups of all ids
    at once, before any of them settles. While lookups fulfil the page keeps
    loading and shows the spinner. When a retrieval fails while the batch is
    still open (its [fetch] rejects, its status is outside 200-299 or its
    body does not parse), its lookup rejects and the batch fails as a
    whole: [error] is the message of that one rejection, [loading] is false
    and [favoriteRecipes] is what it was before the run, so no recipe of the
    batch is stored. With a non-empty message the page shows the error
    view; it shows no recipe card when the message is non-empty or nothing
    was hydrated before. Lookups of the batch that settle later change
    nothing. *)
Theorem strict_batch_policy
    (Recipe : Type)
    (encodeURIComponent : string → string) (null_index_message : string)
    (s : Page Recipe) ids pre i id t err post :
  let k := length (batches s) in
  let s0 := run_effect encodeURIComponent ids s in
  let s' := run encodeURIComponent null_index_message
              (pre ++ [LookupSettles k i t] ++ post) s0 in
  ids !! i = Some id → retrieval_fails id t err →
  Forall (λ ev, fulfils_other null_index_message ids k i ev = true) pre →
  Forall (λ ev, settles_in k ev = true) post →
  requests s0 = requests s ++ (getRecipeByIdUrl encodeURIComponent <$> ids) ∧
  view (run encodeURIComponent null_index_message pre s0) = Spinner ∧
  lookup null_index_message id t = Rejected err ∧
  error s' = Some (failure_message err) ∧ loading s' = false ∧
  favoriteRecipes s' = favoriteRecipes s ∧
  (truthy (failure_message err) = true →
     view s' = ErrorMessage (failure_message err)) ∧
  (truthy (failure_message err) = true ∨ favoriteRecipes s = [] →
     rendered (view s') = []).
Proof.
  intros k s0 s' Hid Hfails Hpre Hpost.
  pose proof (retrieval_fails_rejects null_index_message id t err Hfails) as Hl.
  assert (ids ≠ []) as Hne by (by destruct ids).
  destruct (run_effect_starts encodeURIComponent ids s Hne) as (_ & Hreq & _).
  destruct (first_rejection_fails_batch encodeURIComponent null_index_message
              s ids pre i id t err post Hid Hl Hpre Hpost)
    as (Hobs1 & Hobs2 & Hfav).
  fold k s0 in Hobs1. fold k s0 s' in Hobs2, Hfav.
  injection Hobs1 as _ Hl1 _. injection Hobs2 as Hr2 Hl2 He2.
  split; [exact Hreq|]. split; [unfold view; by rewrite Hl1|].
  split; [exact Hl|].
  split; [done|]. split; [done|]. split; [done|].
  assert (truthy (failure_message err) = true →
          view s' = ErrorMessage (failure_message err)) as Hview.
  { intros Ht. unfold view. by rewrite Hl2, He2, Ht. }
  split; [exact Hview|].
  intros [Ht | Hnil]; [by rewrite Hview|].
  unfold view. rewrite Hl2, He2, Hr2, Hnil.
  destruct (truthy _); [done|]. by case_bool_decide.
Qed.

Lemma strict_batch_policy_witness :
  let s' := run encode_digits v8_null_index
              ([LookupSettles 0 0 (found recipe_1)] ++
               [LookupSettles 0 1 server_error] ++ [])
              (run_effect encode_digits ["1"; "2"] init) in
  error s' = Some "Failed to fetch recipe 2" ∧ loading s' = false ∧
  favoriteRecipes s' = [] ∧ rendered (view s') = [].
Proof.
  intros s'.
  destruct (strict_batch_policy Meal encode_digits v8_null_index init ["1"; "2"]
              [LookupSettles 0 0 (found recipe_1)] 1 "2" server_error
              (new_Error "Failed to fetch recipe 2") [])
    as (_ & _ & _ & He & Hl & Hr & _ & Hz);
    [reflexivity | by constructor | repeat constructor | constructor |].
  split; [exact He|]. split; [exact Hl|]. split; [exact Hr|].
  apply Hz. by left.
Defined.

End FavoritesPageExtras.

(** ** The urls, the page locators and the ingredient list *)

Module ApiFacts.
Import Js Api.

Lemma append_inj_l (a x y : string) : a +:+ x = a +:+ y → x = y.
Proof.
  induction a as [|c a IH]; [done|].
  rewrite !JsonStringsFacts.append_cons. intros [= H]. by apply IH.
Qed.

Lemma truthy_append_l (a x : string) : truthy a = true → truthy (a +:+ x) = true.
Proof. by destruct a. Qed.

Lemma length_omap_le {A B} (f : A → option B) (l : list A) :
  length (omap f l) ≤ length l.
Proof.
  induction l as [|x l IH]; [done|]. csimpl.
  destruct (f x); simpl; lia.
Qed.

Lemma omap_ext_in {A B} (f g : A → option B) (l : list A) :
  (∀ x, x ∈ l → f x = g x) → omap f l = omap g l.
Proof.
  intros Hfg. apply list_omap_ext, Forall_Forall2_diag, Forall_forall.
  exact Hfg.
Qed.

Lemma truthy_true (s : string) : truthy s = true ↔ s ≠ "".
Proof.
  unfold truthy. rewrite negb_true_iff. split.
  - intros H ->. by rewrite String.eqb_refl in H.
  - intros H. by apply String.eqb_neq.
Qed.

Lemma omap_filter_fmap {A B} (f : A → option B) (P : A → Prop)
    `{!∀ x, Decision (P x)} (g : A → B) (l : list A) :
  (∀ x, x ∈ l → f x = if decide (P x) then Some (g x) else None) →
  omap f l = g <$> filter P l.
Proof.
  induction l as [|x l IH]; intros Hf; [done|]. csimpl.
  rewrite (Hf x) by apply list_elem_of_here.
  rewrite IH by (intros y Hy; apply Hf; by apply list_elem_of_further).
  destruct (decide (P x)) as [HP|HP].
  - by rewrite filter_cons_True.
  - by rewrite filter_cons_False.
Qed.

Lemma urls_truthy (encodeURIComponent : string → string) (p : string) :
  truthy (getRecipesByCategoryUrl encodeURIComponent p) = true ∧
  truthy (getRecipeByIdUrl encodeURIComponent p) = true ∧
  truthy (searchRecipesUrl encodeURIComponent p) = true.
Proof. repeat split; by apply truthy_append_l. Qed.

Section Ingredients.
Variable trim : string → string.
Implicit Types (recipe : gmap string (option string)).

(** The loop pushes the entries of the indices it visits, in order. *)
Lemma push_loop recipe (idx : list nat) acc :
  foldl (λ ingredients i,
           match entry trim recipe i with
           | Some x => ingredients ++ [x]
           | None => ingredients
           end) acc idx
  = acc ++ omap (entry trim recipe) idx.
Proof.
  revert acc. induction idx as [|i idx IH]; intros acc; simpl.
  - by rewrite app_nil_r.
  - rewrite IH. destruct (entry trim recipe i); [|done].
    by rewrite <- app_assoc.
Qed.

Lemma extractIngredients_omap recipe :
  extractIngredients trim recipe = omap (entry trim recipe) (seq 1 20).
Proof. unfold extractIngredients. by rewrite push_loop. Qed.

Lemma entry_nonblank recipe i x :
  entry trim recipe i = Some x → truthy (ingredient x) = true.
Proof.
  unfold entry. destruct (property recipe _) as [name|]; [|done].
  destruct (truthy name); simpl; [|done].
  destruct (truthy (trim name)) eqn:Ht; [|done]. by intros [= <-].
Qed.

Lemma entry_ext recipe1 recipe2 i :
  recipe1 !! ("strIngredient" +:+ pretty i)
    = recipe2 !! ("strIngredient" +:+ pretty i) →
  recipe1 !! ("strMeasure" +:+ pretty i)
    = recipe2 !! ("strMeasure" +:+ pretty i) →
  entry trim recipe1 i = entry trim recipe2 i.
Proof. intros H1 H2. unfold entry, property. by rewrite H1, H2. Qed.

End Ingredients.
End ApiFacts.

Module ApiExtras.
Import Js Api ApiFacts.

(** X17: [extractIngredients] returns at most twenty entries, and the
    ingredient name of each is non-empty, whatever the recipe holds. *)
Theorem ingredients_bounded_and_named (trim : string → string)
    (recipe : gmap string (option string)) :
  length (extractIngredients trim recipe) ≤ 20 ∧
  ∀ x, x ∈ extractIngredients trim recipe → truthy (ingredient x) = true.
Proof.
  rewrite extractIngredients_omap. split.
  - etrans; [apply length_omap_le|]. by rewrite length_seq.
  - intros x Hx. apply list_elem_of_omap in Hx as (i & _ & Hi).
    by apply (entry_nonblank trim recipe i).
Qed.

(** X18: the ingredient list is made of the indices 1 to 20, in this
    order, whose [strIngredient] property is a string that is neither empty
    nor empty once trimmed: a blank, [null] or missing ingredient is left
    out and does not end the scan. Each entry holds the trimmed ingredient
    and the trimmed [strMeasure] of the same index, or the empty string when
    that measure is empty, [null] or missing. So the list depends on nothing
    but the forty properties [strIngredient1..20] and [strMeasure1..20]. *)
Theorem ingredients_scan_all_twenty (trim : string → string)
    (recipe : gmap string (option string)) :
  let name i := match recipe !! ("strIngredient" +:+ pretty i) with
                | Some (Some text) => text
                | _ => ""
                end in
  let amount i := match recipe !! ("strMeasure" +:+ pretty i) with
                  | Some (Some text) => text
                  | _ => ""
                  end in
  extractIngredients trim recipe =
    (λ i, {| ingredient := trim (name i);
             measure := if decide (amount i = "") then ""
                        else trim (amount i) |})
      <$> filter (λ i, name i ≠ "" ∧ trim (name i) ≠ "") (seq 1 20) ∧
  (∀ other,
      (∀ i, 1 ≤ i ≤ 20 →
            other !! ("strIngredient" +:+ pretty i)
              = recipe !! ("strIngredient" +:+ pretty i) ∧
            other !! ("strMeasure" +:+ pretty i)
              = recipe !! ("strMeasure" +:+ pretty i)) →
      extractIngredients trim other = extractIngredients trim recipe).
Proof.
  intros name amount. split.
  - rewrite extractIngredients_omap. apply omap_filter_fmap.
    intros i _. unfold entry, property. subst name amount. simpl.
    destruct (recipe !! ("strIngredient" +:+ pretty i)) as [[text|]|]; simpl.
    + destruct (truthy text) eqn:Ht; simpl.
      * destruct (truthy (trim text)) eqn:Ht'.
        -- apply truthy_true in Ht, Ht'.
           rewrite decide_True by done. do 2 f_equal.
           destruct (recipe !! ("strMeasure" +:+ pretty i)) as [[m|]|]; simpl.
           ++ destruct (truthy m) eqn:Hm.
              ** apply truthy_true in Hm. by rewrite decide_False.
              ** apply negb_false_iff, String.eqb_eq in Hm. by rewrite decide_True.
           ++ done.
           ++ done.
        -- rewrite decide_False; [done|]. intros [_ H].
           apply truthy_true in H. congruence.
      * rewrite decide_False; [done|]. intros [H _].
        apply truthy_true in H. congruence.
    + done.
    + done.
  - intros other Hsame. rewrite !extractIngredients_omap.
    apply omap_ext_in. intros i Hi.
    apply elem_of_seq in Hi. destruct (Hsame i) as [H1 H2]; [lia|].
    by apply entry_ext.
Qed.

(** X19: given an encoder that maps different texts to different texts, each
    url builder maps different arguments to different urls, and the four
    endpoints never share a url, so a locator names one resource. No url is
    the empty string, hence none is the sentinel. *)
Theorem urls_name_one_resource (encodeURIComponent : string → string) :
  (∀ x y, encodeURIComponent x = encodeURIComponent y → x = y) →
  let categories := getCategoriesUrl in
  let category := getRecipesByCategoryUrl encodeURIComponent in
  let recipe := getRecipeByIdUrl encodeURIComponent in
  let search := searchRecipesUrl encodeURIComponent in
  (∀ a b, category a = category b → a = b) ∧
  (∀ a b, recipe a = recipe b → a = b) ∧
  (∀ a b, search a = search b → a = b) ∧
  (∀ a b, category a ≠ recipe b ∧ category a ≠ search b ∧
          recipe a ≠ search b) ∧
  (∀ a, categories ≠ category a ∧ categories ≠ recipe a ∧
        categories ≠ search a) ∧
  (∀ a, truthy categories = true ∧ truthy (category a) = true ∧
        truthy (recipe a) = true ∧ truthy (search a) = true).
Proof.
  intros Hinj categories category recipe search.
  subst categories category recipe search.
  unfold getCategoriesUrl, getRecipesByCategoryUrl, getRecipeByIdUrl,
    FavoritesPage.getRecipeByIdUrl, searchRecipesUrl, BASE_URL.
  assert (∀ (p : string) x y,
            FavoritesPage.BASE_URL +:+ p +:+ encodeURIComponent x
            = FavoritesPage.BASE_URL +:+ p +:+ encodeURIComponent y → x = y)
    as Hbuild.
  { intros p x y H. by apply append_inj_l, append_inj_l, Hinj in H. }
  split; [intros a b; apply Hbuild|].
  split; [intros a b; apply Hbuild|].
  split; [intros a b; apply Hbuild|].
  split; [|split].
  - intros a b. repeat split; intros H; apply append_inj_l in H;
      rewrite !JsonStringsFacts.append_cons in H; discriminate H.
  - intros a. repeat split; intros H; apply append_inj_l in H;
      rewrite ?JsonStringsFacts.append_cons in H; discriminate H.
  - intros a. repeat split; by apply truthy_append_l.
Qed.

Lemma urls_name_one_resource_witness :
  let category := getRecipesByCategoryUrl PageInputs.encode_digits in
  let recipe := getRecipeByIdUrl PageInputs.encode_digits in
  category "52772" ≠ recipe "52772" ∧
  (recipe "52772" = recipe "52772" → "52772" = "52772").
Proof.
  intros category recipe.
  destruct (urls_name_one_resource PageInputs.encode_digits)
    as (_ & Hrecipe & _ & Hapart & _); [by intros x y|].
  split.
  - by destruct (Hapart "52772" "52772") as (H & _).
  - apply Hrecipe.
Defined.

(** X20: a page binds the sentinel exactly when its route parameter is
    missing or empty. For any other parameter the first render of the page
    issues one retrieval, for the url of that parameter, and the tracker is
    pending with no payload and no error. *)
Theorem page_binds_its_parameter (T : Type)
    (encodeURIComponent : string → string) url param :
  url ∈ [getRecipesByCategoryUrl encodeURIComponent;
         getRecipeByIdUrl encodeURIComponent;
         searchRecipesUrl encodeURIComponent] →
  let u := locator url param in
  let s := UseFetch.step (UseFetch.init (T:=T)) (UseFetch.Render u) in
  (UseFetch.is_sentinel u = true ↔ param = None ∨ param = Some "") ∧
  (∀ p, param = Some p → truthy p = true →
        UseFetch.retrievals s =
          [{| UseFetch.r_url := url p; UseFetch.r_aborted := false;
              UseFetch.r_phase := UseFetch.AwaitFetch |}] ∧
        UseFetch.observe s = (None, true, None)).
Proof.
  intros Hurl u s.
  assert (∀ p, truthy (url p) = true) as Htruthy.
  { intros p.
    destruct (urls_truthy encodeURIComponent p) as (H1 & H2 & H3).
    repeat (apply elem_of_cons in Hurl as [-> | Hurl]; [done|]).
    by apply elem_of_nil in Hurl. }
  subst s u. split.
  - destruct param as [p|]; simpl; [|by split; [left|]].
    destruct (truthy p) eqn:Hp; simpl.
    + rewrite Htruthy. split; [done|]. intros [?|[= ->]]; done.
    + split; [|done]. intros _. right. f_equal.
      unfold truthy in Hp. apply negb_false_iff in Hp.
      by apply String.eqb_eq in Hp.
  - intros p -> Hp. simpl. rewrite Hp.
    unfold UseFetch.render, UseFetch.run_effect. simpl.
    by rewrite Htruthy.
Qed.

Lemma page_binds_its_parameter_witness :
  let url := getRecipesByCategoryUrl PageInputs.encode_digits in
  let u := locator url (Some "Seafood") in
  let s := UseFetch.step (UseFetch.init (T:=nat)) (UseFetch.Render u) in
  UseFetch.is_sentinel u = false ∧
  UseFetch.observe s = (None, true, None).
Proof.
  intros url u s.
  destruct (page_binds_its_parameter nat PageInputs.encode_digits url
              (Some "Seafood")) as [_ Hbind]; [apply list_elem_of_here|].
  split; [reflexivity|].
  by destruct (Hbind "Seafood" eq_refl eq_refl) as [_ Hobs].
Defined.

End ApiExtras.

(** ** The category page over the states of its tracker *)

Module CategoryPageExtras.
Import Js UseFetch UseFetchFacts CategoryPage.

(** X21: in every state the tracker of the category page can reach, the
    page shows the error message exactly when the tracker holds an error: a
    failure is never hidden behind the spinner or by an empty message. The
    spinner is on screen exactly while [loading] is set, and recipe cards
    only when there is no error, nothing is loading and [data] holds these
    meals. *)
Theorem category_page_shows_every_failure (Recipe : Type)
    (evs : list (Event (RecipesByCategoryResponse Recipe))) :
  let s := run evs init in
  (∀ m, error s = Some m ↔ view s = ErrorMessage m) ∧
  (loading s = true ↔ view s = Spinner) ∧
  (∀ cards, view s = RecipesGrid cards →
            error s = None ∧ loading s = false ∧
            ∃ d, data s = Some d ∧ meals d = Some cards).
Proof.
  intros s. destruct (reachable_consistent (T:=RecipesByCategoryResponse Recipe) evs)
    as [Hpending Hmessage]. fold s in Hpending, Hmessage.
  assert (∀ d, content (Recipe:=Recipe) d ≠ Spinner) as Hc1
    by (by intros [[[?|]]|]).
  assert (∀ d m, content (Recipe:=Recipe) d ≠ ErrorMessage m) as Hc2
    by (by intros [[[?|]]|]).
  assert (∀ d cards, content (Recipe:=Recipe) d = RecipesGrid cards →
                     ∃ p, d = Some p ∧ meals p = Some cards) as Hc3.
  { intros [[[ms|]]|] cards; simpl; try done. intros [= <-]. by eexists. }
  unfold view. destruct (loading s) eqn:Hl.
  - rewrite (Hpending eq_refl). split; [|split]; [by split|by split|done].
  - destruct (error s) as [e|] eqn:He.
    + rewrite (Hmessage e eq_refl). split; [|split].
      * intros m. split; by intros [= ->].
      * by split.
      * done.
    + split; [|split].
      * intros m. split; [done|]. intros H. by apply Hc2 in H.
      * split; [done|]. intros H. by apply Hc1 in H.
      * intros cards H. apply Hc3 in H. done.
Qed.

End CategoryPageExtras.
